(** * f-tedious: the row reader and the prepared-statement writer of
    [src/lib/index.ts], as state machines over the events of the tedious
    session, with the properties of the specification proved about them. *)

From Stdlib Require Import String Ascii DecimalString DecimalNat.
From Stdlib Require Import List Bool Arith ZArith Lia.
Import ListNotations.

Set Warnings "-register-all".

Local Open Scope string_scope.
Local Open Scope list_scope.

(** ** JavaScript values

    Rows, errors and written objects are of type [any] / [T] in the source:
    the code only tests them for truthiness, for [=== undefined], and (in the
    writer) enumerates their elements. *)

Inductive value : Type :=
| VUndefined
| VNull
| VBool (b : bool)
| VNum (n : Z)
| VStr (s : string)
| VArr (items : list value)
| VObj (fields : list (string * value)).

(** [if (v)], [v || w], [c ? a : b] on a JavaScript value. *)
Definition truthy (v : value) : bool :=
  match v with
  | VUndefined | VNull => false
  | VBool b => b
  | VNum n => negb (Z.eqb n 0)
  | VStr s => match s with EmptyString => false | String _ _ => true end
  | VArr _ | VObj _ => true
  end.

Definition js_or (a b : value) : value := if truthy a then a else b.

Definition is_undefined (v : value) : bool :=
  match v with VUndefined => true | _ => false end.

(** What a call blocked in [wait(cb => ...)] yields when [cb(err, res)] is
    called: it throws [err] when that is truthy, and returns [res] otherwise.
    A returned [undefined] is the end of the stream. *)
Inductive outcome : Type :=
| Returns (v : value)
| Throws (e : value).

Definition wait_result (err res : value) : outcome :=
  if truthy err then Throws err else Returns res.

Definition end_of_stream : outcome := Returns VUndefined.

(** Sample values for the examples: a row object and an error object. *)
Definition sample_row (id : Z) : value := VObj [("id", VNum id)].
Definition sample_error : value := VObj [("message", VStr "boom")].

(** ** Closure state and effects

    The closures of [reader] and [writer] mutate their captured variables and
    call into the connection. A function of the source becomes a computation
    that reads and updates the captured variables and logs, in order, the
    calls it makes on its collaborators. *)

Section Closure.
Variables St Eff : Type.

Definition M (A : Type) : Type := St -> A * St * list Eff.

Definition ret {A : Type} (a : A) : M A := fun s => (a, s, []).

Definition bind {A B : Type} (m : M A) (k : A -> M B) : M B :=
  fun s =>
    let '(a, s1, o1) := m s in
    let '(b, s2, o2) := k a s1 in
    (b, s2, o1 ++ o2).

Definition get {A : Type} (f : St -> A) : M A := fun s => (f s, s, []).

Definition modify (f : St -> St) : M unit := fun s => (tt, f s, []).

Definition emit (e : Eff) : M unit := fun _s => (tt, _s, [e]).

Definition when (b : bool) (m : M unit) : M unit :=
  if b then m else ret tt.

(** Running a handler: the new state and what it did. *)
Definition exec (m : M unit) (s : St) : St * list Eff :=
  let '(_, s', o) := m s in (s', o).

(** A machine fed a list of events, one handler per event. *)
Fixpoint run_with {Ev : Type} (handle : Ev -> M unit) (s : St)
  (evs : list Ev) : St * list Eff :=
  match evs with
  | [] => (s, [])
  | e :: evs' =>
      let '(s1, o1) := exec (handle e) s in
      let '(s2, o2) := run_with handle s1 evs' in
      (s2, o1 ++ o2)
  end.
End Closure.

Arguments ret {St Eff A} a.
Arguments bind {St Eff A B} m k.
Arguments get {St Eff A} f.
Arguments modify {St Eff} f.
Arguments emit {St Eff} e.
Arguments when {St Eff} b m.
Arguments exec {St Eff} m s.
Arguments run_with {St Eff Ev} handle s evs.

Declare Scope closure_scope.
Delimit Scope closure_scope with closure.
Notation "x <- m ;; k" := (bind m (fun x => k))
  (at level 61, m at next level, right associativity) : closure_scope.
Notation "m ;; k" := (bind m (fun _ => k))
  (at level 61, right associativity) : closure_scope.

(** ** The reader *)

Module Reader.
Local Open Scope closure_scope.

(** The two calls that park a callback in [callback]: the read function and
    the stop function handed to [devices.generic.reader]. *)
Inductive caller : Type := ReadCall | StopCall.

(** The variables captured by the closures of [reader]. [request] is
    [true] while the variable holds the request with its listeners, [false]
    once it is [null]; [close] is [true] while [opts.close] is set. *)
Record state : Type := mkState {
  error : value;
  callback : option caller;
  stopped : bool;
  done : bool;
  paused : bool;
  received : list value;
  request : bool;
  close : bool
}.

Inductive effect : Type :=
| SocketPause
| SocketResume
| Cancel
| ExecSql
| RemoveAllListeners
| Invoke (c : caller) (err res : value)
| Close
| Uncaught (e : value).

Definition low : nat := 0.
Definition high : nat := 2.

Definition set_error (v : value) (s : state) : state :=
  mkState v (callback s) (stopped s) (done s) (paused s) (received s)
    (request s) (close s).
Definition set_callback (c : option caller) (s : state) : state :=
  mkState (error s) c (stopped s) (done s) (paused s) (received s)
    (request s) (close s).
Definition set_stopped (b : bool) (s : state) : state :=
  mkState (error s) (callback s) b (done s) (paused s) (received s)
    (request s) (close s).
Definition set_done (b : bool) (s : state) : state :=
  mkState (error s) (callback s) (stopped s) b (paused s) (received s)
    (request s) (close s).
Definition set_paused (b : bool) (s : state) : state :=
  mkState (error s) (callback s) (stopped s) (done s) b (received s)
    (request s) (close s).
Definition set_received (l : list value) (s : state) : state :=
  mkState (error s) (callback s) (stopped s) (done s) (paused s) l
    (request s) (close s).
Definition set_request (b : bool) (s : state) : state :=
  mkState (error s) (callback s) (stopped s) (done s) (paused s)
    (received s) b (close s).
Definition set_close (b : bool) (s : state) : state :=
  mkState (error s) (callback s) (stopped s) (done s) (paused s)
    (received s) (request s) b.

Definition R := M state effect.

(** [function push(record)] *)
Definition push (record : value) : R unit :=
  modify (fun s => set_received (received s ++ [record]) s) ;;
  n <- get (fun s => length (received s)) ;;
  when (Nat.eqb n high)
    (emit SocketPause ;; modify (set_paused true)).

(** [function shift()]; [Array.prototype.shift] of an empty array is
    [undefined]. *)
Definition shift : R value :=
  n <- get (fun s => length (received s)) ;;
  when (Nat.eqb n (low + 1))
    (modify (set_paused false) ;; emit SocketResume) ;;
  l <- get received ;;
  match l with
  | [] => ret VUndefined
  | v :: l' => modify (set_received l') ;; ret v
  end.

(** The [finally] block of [withClose]: it runs when the wrapped call
    returns or throws, that is when its [wait] returns. Without
    [opts.close] the functions are not wrapped, and the block, which would
    find no hook, does nothing. *)
Definition finally_close : R unit :=
  c <- get close ;;
  when c (emit Close) ;;
  modify (set_close false).

(** Calling the callback of a [wait]. The call of [c] blocked in that
    [wait] does not return here: it resumes later (see [Resumed]). *)
Definition invoke (c : caller) (err res : value) : R unit :=
  emit (Invoke c err res).

(** [function send(err, result)] *)
Definition send (err result : value) : R unit :=
  cb <- get callback ;;
  modify (set_callback None) ;;
  match cb with
  | Some c =>
      if truthy result then invoke c err result
      else modify (set_done true) ;; invoke c VNull VUndefined
  | None =>
      modify (fun s => set_error (js_or (error s) err) s) ;;
      if truthy result then push result
      else modify (set_done true)
  end.

(** [if (request) request.removeAllListeners(); request = null;] *)
Definition release_request : R unit :=
  r <- get request ;;
  when r (emit RemoveAllListeners) ;;
  modify (set_request false).

(** The function given to [wait] by the read function. *)
Definition read : R unit :=
  e <- get error ;;
  if truthy e then release_request ;; invoke ReadCall e VUndefined
  else
    l <- get received ;;
    match l with
    | _ :: _ => v <- shift ;; invoke ReadCall VUndefined v
    | [] =>
        d <- get done ;;
        if d then release_request ;; invoke ReadCall VUndefined VUndefined
        else modify (set_callback (Some ReadCall))
    end.

(** The function given to [wait] by [stop]. *)
Definition stop : R unit :=
  d <- get done ;;
  if d then invoke StopCall VUndefined VUndefined
  else
    modify (set_stopped true) ;;
    emit Cancel ;;
    modify (set_callback (Some StopCall)).

Definition type_error : value := VObj [("name", VStr "TypeError")].

(** The completion callback of [new tds.Request(sql, ...)]. Its first
    statement dereferences [request]: when that is already [null] the
    callback throws before it does anything else. *)
Definition request_callback (err : value) : R unit :=
  r <- get request ;;
  if r then
    emit RemoveAllListeners ;;
    modify (set_request false) ;;
    st <- get stopped ;;
    send (if st then VNull else err) VUndefined
  else emit (Uncaught type_error).

(** [request.on('row', ...)] *)
Definition row_listener (row : value) : R unit :=
  st <- get stopped ;;
  if st then ret tt else send VNull row.

(** What reaches the closures: the events of the request and the calls of
    the consumer. [Resumed] is the moment a call whose callback has been
    called resumes: its [wait] returns or throws, and the call leaves
    through the [finally] block of [withClose]. It comes some time after the
    callback was called, possibly after other events of the same turn, and
    before the consumer does anything else. *)
Inductive event : Type :=
| Row (row : value)
| Completed (err : value)
| Read
| Stop
| Resumed.

(** A row event finds its listener only while the listeners are attached. *)
Definition handle (e : event) : R unit :=
  match e with
  | Row row =>
      r <- get request ;;
      if r then row_listener row else ret tt
  | Completed err => request_callback err
  | Read => read
  | Stop => stop
  | Resumed => finally_close
  end.

(** The state when [reader] returns; [hook] tells whether [opts.close] was
    given. *)
Definition init (hook : bool) : state :=
  mkState VNull None false false false [] true hook.

Record options : Type := mkOptions {
  opt_close : bool;
  opt_fillParameters : bool
}.

(** [reader(connection, sql, args, opts)]: fails when [fillParameters] is
    not a function, and otherwise starts the query. *)
Definition reader (opts : options) : option (state * list effect) :=
  if opt_fillParameters opts then Some (init (opt_close opts), [ExecSql])
  else None.

Definition run : state -> list event -> state * list effect :=
  run_with handle.
Definition final (s : state) (evs : list event) : state := fst (run s evs).
Definition effects (s : state) (evs : list event) : list effect :=
  snd (run s evs).

(** The buffer operations on their own. *)
Inductive op : Type := Push (record : value) | Shift.

Definition apply_op (o : op) : R unit :=
  match o with
  | Push record => push record
  | Shift => _ <- shift ;; ret tt
  end.

Definition run_ops : state -> list op -> state * list effect :=
  run_with apply_op.

(** *** Reading a log of effects *)

(** What the successive calls of the read function yielded. *)
Fixpoint reads (o : list effect) : list outcome :=
  match o with
  | [] => []
  | Invoke ReadCall err res :: o' => wait_result err res :: reads o'
  | _ :: o' => reads o'
  end.

(** What the calls of [stop] yielded. *)
Fixpoint stops (o : list effect) : list outcome :=
  match o with
  | [] => []
  | Invoke StopCall err res :: o' => wait_result err res :: stops o'
  | _ :: o' => stops o'
  end.

Definition is_read (e : event) : bool :=
  match e with Read => true | _ => false end.
Definition is_row (e : event) : bool :=
  match e with Row _ => true | _ => false end.

Fixpoint rows (evs : list event) : list value :=
  match evs with
  | [] => []
  | Row v :: evs' => v :: rows evs'
  | _ :: evs' => rows evs'
  end.

Definition count_reads (evs : list event) : nat :=
  length (filter is_read evs).

(** Rows as tedious delivers them (truthy) and calls of the read function. *)
Definition streaming (e : event) : bool :=
  match e with
  | Row v => truthy v
  | Read => true
  | _ => false
  end.

(** One call at a time: the consumer calls the read function or [stop]
    only when no earlier call is still blocked in its [wait]. *)
Fixpoint sequential (s : state) (evs : list event) : bool :=
  match evs with
  | [] => true
  | e :: evs' =>
      match e, callback s with
      | (Read | Stop), Some _ => false
      | _, _ => sequential (fst (exec (handle e) s)) evs'
      end
  end.

(** No row is pushed while the transport is paused. *)
Fixpoint honours_pause (s : state) (ops : list op) : bool :=
  match ops with
  | [] => true
  | o :: ops' =>
      match o, paused s with
      | Push _, true => false
      | _, _ => honours_pause (fst (exec (apply_op o) s)) ops'
      end
  end.

Definition is_close (e : effect) : bool :=
  match e with Close => true | _ => false end.
Definition is_invoke (e : effect) : bool :=
  match e with Invoke _ _ _ => true | _ => false end.
Definition is_stop (e : event) : bool :=
  match e with Stop => true | _ => false end.
Definition is_call (e : event) : bool := is_read e || is_stop e.
Definition is_push (o : op) : bool :=
  match o with Push _ => true | Shift => false end.

Definition count_stops (evs : list event) : nat :=
  length (filter is_stop evs).

(** [n] successive reads of a stream that has ended with [buf] still
    buffered: the buffered rows in order, then the end of the stream. *)
Fixpoint drain (n : nat) (buf : list value) : list outcome :=
  match n with
  | 0 => []
  | S n' =>
      match buf with
      | [] => end_of_stream :: drain n' []
      | v :: buf' => Returns v :: drain n' buf'
      end
  end.

Definition is_resumed (e : event) : bool :=
  match e with Resumed => true | _ => false end.

(** The events that arrive before the first call resumes. *)
Fixpoint before_resumed (evs : list event) : list event :=
  match evs with
  | [] => []
  | Resumed :: _ => []
  | e :: evs' => e :: before_resumed evs'
  end.

(** A run without the moments at which calls resume. *)
Definition without_resumed (evs : list event) : list event :=
  filter (fun e => negb (is_resumed e)) evs.

(** Only a call whose callback has been called resumes: [called] counts
    the callbacks called whose calls have not resumed yet. *)
Fixpoint resumes_follow_callbacks (called : nat) (s : state)
  (evs : list event) : bool :=
  match evs with
  | [] => true
  | Resumed :: evs' =>
      match called with
      | 0 => false
      | S n =>
          resumes_follow_callbacks n (fst (exec (handle Resumed) s)) evs'
      end
  | e :: evs' =>
      resumes_follow_callbacks
        (called + length (filter is_invoke (snd (exec (handle e) s))))
        (fst (exec (handle e) s)) evs'
  end.

Definition no_close (o : list effect) : list effect :=
  filter (fun e => negb (is_close e)) o.

Definition waiting (s : state) : nat :=
  match callback s with Some _ => 1 | None => 0 end.

(** The reader while rows are still expected: nothing is cached, and a
    parked callback is one of the read function, waiting on an empty
    buffer. *)
Definition expecting (s : state) : Prop :=
  truthy (error s) = false /\ stopped s = false /\ done s = false /\
  request s = true /\
  (callback s = None \/ (callback s = Some ReadCall /\ received s = [])).

(** At most [high] rows are buffered, and the transport is paused while
    [high] rows are. *)
Definition within (s : state) : Prop :=
  length (received s) <= high /\
  (length (received s) = high -> paused s = true).

(** The reader after the stream has ended with no call blocked. *)
Definition ended (s : state) : Prop :=
  truthy (error s) = false /\ done s = true /\ callback s = None.
(** *** Further readings of a run *)

Definition is_cancel (e : effect) : bool :=
  match e with Cancel => true | _ => false end.
Definition is_remove (e : effect) : bool :=
  match e with RemoveAllListeners => true | _ => false end.
Definition is_socket (e : effect) : bool :=
  match e with SocketPause | SocketResume => true | _ => false end.

Definition count_calls (evs : list event) : nat :=
  length (filter is_call evs).

(** The transport honours the pause: no row event while [paused] is set. *)
Fixpoint quiet_while_paused (s : state) (evs : list event) : bool :=
  match evs with
  | [] => true
  | e :: evs' =>
      match e, paused s with
      | Row _, true => false
      | _, _ => quiet_while_paused (fst (exec (handle e) s)) evs'
      end
  end.

(** A consumer that is always ahead of the rows: it calls the read function
    before each row arrives. *)
Definition read_ahead (rs : list value) : list event :=
  flat_map (fun r => [Read; Row r]) rs.

(** What every run from [init] keeps: nothing is parked once [done] is set,
    the request is dropped and an error is cached only when [done] is set. *)
Definition settled (s : state) : Prop :=
  (done s = true -> callback s = None) /\
  (request s = false -> done s = true) /\
  (truthy (error s) = true -> done s = true).

(** With one call at a time, a stopped reader is done or has the callback
    of [stop] parked. *)
Definition stopping (s : state) : Prop :=
  stopped s = true -> done s = true \/ callback s = Some StopCall.
End Reader.

(** ** The writer *)

Module Writer.
Local Open Scope closure_scope.

(** [Dict<any>]: the parameter names with their values, in the order they
    were set. *)
Definition dict : Type := list (string * value).

(** The variables captured by the closures of [writer]. A parked callback
    is named by the number of the call of the write function that parked
    it. [listening] is [true] while [processError] is registered on the
    connection for [errorMessage]. *)
Record state : Type := mkState {
  done : bool;
  callback : option nat;
  isPreparing : bool;
  pendingParamValues : option dict;
  shouldUnprepare : bool;
  listening : bool
}.

Inductive effect : Type :=
| DescribeColumns
| Prepare
| Execute (paramValues : dict)
| Unprepare
| RemoveErrorListener
| Invoke (cb : nat) (err : value).

Definition set_done (b : bool) (s : state) : state :=
  mkState b (callback s) (isPreparing s) (pendingParamValues s)
    (shouldUnprepare s) (listening s).
Definition set_callback (c : option nat) (s : state) : state :=
  mkState (done s) c (isPreparing s) (pendingParamValues s)
    (shouldUnprepare s) (listening s).
Definition set_isPreparing (b : bool) (s : state) : state :=
  mkState (done s) (callback s) b (pendingParamValues s)
    (shouldUnprepare s) (listening s).
Definition set_pendingParamValues (p : option dict) (s : state) : state :=
  mkState (done s) (callback s) (isPreparing s) p
    (shouldUnprepare s) (listening s).
Definition set_shouldUnprepare (b : bool) (s : state) : state :=
  mkState (done s) (callback s) (isPreparing s) (pendingParamValues s)
    b (listening s).
Definition set_listening (b : bool) (s : state) : state :=
  mkState (done s) (callback s) (isPreparing s) (pendingParamValues s)
    (shouldUnprepare s) b.

Definition W := M state effect.

(** [connection.removeListener('errorMessage', processError)] *)
Definition remove_error_listener : W unit :=
  emit RemoveErrorListener ;; modify (set_listening false).

(** [function send(err)] *)
Definition send (err : value) : W unit :=
  cb <- get callback ;;
  modify (set_callback None) ;;
  match cb with
  | Some k => emit (Invoke k err)
  | None => ret tt
  end.

(** [function processError(err)] *)
Definition processError (err : value) : W unit :=
  remove_error_listener ;; send err.

(** The completion callback of [new tds.Request(sql, ...)]. *)
Definition request_callback (err : value) : W unit :=
  p <- get isPreparing ;;
  if p then ret tt else send err.

(** [request.on('prepared', ...)] *)
Definition prepared_listener : W unit :=
  modify (set_isPreparing false) ;;
  u <- get shouldUnprepare ;;
  if u then emit Unprepare ;; modify (set_shouldUnprepare false)
  else
    p <- get pendingParamValues ;;
    match p with
    | Some paramValues => emit (Execute paramValues)
    | None => ret tt
    end.

Definition type_error : value := VObj [("name", VStr "TypeError")].

Fixpoint chars (s : string) : list value :=
  match s with
  | EmptyString => []
  | String ch s' => VStr (String ch EmptyString) :: chars s'
  end.

(** [Array.isArray(obj) ? obj : Object.keys(obj).map((k, i) => obj[k])];
    [Object.keys] throws on [null] and [undefined]. *)
Definition values_of (obj : value) : value + list value :=
  match obj with
  | VArr items => inr items
  | VObj fields => inr (map snd fields)
  | VStr s => inr (chars s)
  | VBool _ | VNum _ => inr []
  | VNull | VUndefined => inl type_error
  end.

(** ['p' + index] *)
Definition param_name (index : nat) : string :=
  "p" ++ NilEmpty.string_of_uint (Nat.to_uint index).

(** [vals.forEach((value, index) => paramValues['p' + index] = value)] *)
Fixpoint bind_from (index : nat) (vals : list value) : dict :=
  match vals with
  | [] => []
  | v :: vals' => (param_name index, v) :: bind_from (S index) vals'
  end.

Definition param_values (obj : value) : value + dict :=
  match values_of obj with
  | inl e => inl e
  | inr vals => inr (bind_from 0 vals)
  end.

(** The function given to [wait] by the write function, for the call
    number [cb] with argument [obj]. *)
Definition write (cb : nat) (obj : value) : W unit :=
  d <- get done ;;
  if d then ret tt
  else
    modify (set_callback (Some cb)) ;;
    d' <- get done ;;
    if is_undefined obj && negb d' then
      modify (set_done true) ;;
      p <- get isPreparing ;;
      (if p then modify (set_shouldUnprepare true) else emit Unprepare) ;;
      remove_error_listener
    else
      match param_values obj with
      | inr paramValues =>
          p <- get isPreparing ;;
          if p then modify (set_pendingParamValues (Some paramValues))
          else emit (Execute paramValues)
      | inl err =>
          c <- get callback ;;
          match c with
          | Some k => emit (Invoke k err) ;; modify (set_callback None)
          | None => ret tt
          end
      end.

Inductive event : Type :=
| EWrite (cb : nat) (obj : value)
| Prepared
| Completed (err : value)
| ErrorMessage (err : value).

(** An [errorMessage] of the connection reaches [processError] only while
    it is registered. *)
Definition handle (e : event) : W unit :=
  match e with
  | EWrite cb obj => write cb obj
  | Prepared => prepared_listener
  | Completed err => request_callback err
  | ErrorMessage err =>
      l <- get listening ;;
      if l then processError err else ret tt
  end.

Definition init : state := mkState false None true None false true.

(** [writer(connection, sql, opts)]: the three checks, then the request is
    described and prepared. *)
Definition writer (connection sql describeColumns : bool)
  : option (state * list effect) :=
  if connection && sql && describeColumns
  then Some (init, [DescribeColumns; Prepare])
  else None.

Definition run : state -> list event -> state * list effect :=
  run_with handle.
Definition final (s : state) (evs : list event) : state := fst (run s evs).
Definition effects (s : state) (evs : list event) : list effect :=
  snd (run s evs).

Definition is_prepared (e : event) : bool :=
  match e with Prepared => true | _ => false end.
Definition is_execute (e : effect) : bool :=
  match e with Execute _ => true | _ => false end.
Definition is_unprepare (e : effect) : bool :=
  match e with Unprepare => true | _ => false end.
Definition is_invoke (e : effect) : bool :=
  match e with Invoke _ _ => true | _ => false end.
Definition invokes (cb : nat) (e : effect) : bool :=
  match e with Invoke k _ => Nat.eqb k cb | _ => false end.
Definition writes_as (cb : nat) (e : event) : bool :=
  match e with EWrite k _ => Nat.eqb k cb | _ => false end.

Definition count {A : Type} (f : A -> bool) (l : list A) : nat :=
  length (filter f l).

(** The events that arrive before the first [prepared]. *)
Fixpoint before_prepared (evs : list event) : list event :=
  match evs with
  | [] => []
  | Prepared :: _ => []
  | e :: evs' => e :: before_prepared evs'
  end.
(** The writer once the end was written before [prepared]. *)
Definition closing (cb : nat) : state :=
  mkState true (Some cb) true None true false.

(** The writer once the deferred unprepare was issued. *)
Definition closed (s : state) : Prop :=
  done s = true /\ isPreparing s = false /\ pendingParamValues s = None /\
  shouldUnprepare s = false /\ listening s = false.
(** *** Further readings of a run *)

(** The call that writes the end of the stream. *)
Definition is_end (e : event) : bool :=
  match e with EWrite _ VUndefined => true | _ => false end.

(** The parameters bound for a row ([{}] when the row cannot be
    enumerated). *)
Definition params_of (obj : value) : dict :=
  match param_values obj with inr paramValues => paramValues | inl _ => [] end.

Definition bindable (obj : value) : bool :=
  match param_values obj with inr _ => true | inl _ => false end.

(** Rows written one after the other by calls numbered from [cb], each
    followed by the completion of its execute, which carries [err]. *)
Fixpoint row_calls (cb : nat) (rows : list (value * value)) : list event :=
  match rows with
  | [] => []
  | (obj, err) :: rows' =>
      EWrite cb obj :: Completed err :: row_calls (S cb) rows'
  end.

(** What such calls are expected to do: one execute per row, and the call
    resolved with the outcome of that execute. *)
Fixpoint row_log (cb : nat) (rows : list (value * value)) : list effect :=
  match rows with
  | [] => []
  | (obj, err) :: rows' =>
      Execute (params_of obj) :: Invoke cb err :: row_log (S cb) rows'
  end.

Definition holds (cb : nat) (s : state) : nat :=
  match callback s with
  | Some k => if Nat.eqb k cb then 1 else 0
  | None => 0
  end.
End Writer.

(** * Properties *)

(** ** Running a machine *)

Section RunFacts.
Context {St Eff Ev : Type} (handle : Ev -> M St Eff unit).

Lemma run_with_cons (s : St) (e : Ev) (evs : list Ev) :
  run_with handle s (e :: evs) =
  (fst (run_with handle (fst (exec (handle e) s)) evs),
   snd (exec (handle e) s)
     ++ snd (run_with handle (fst (exec (handle e) s)) evs)).
Proof.
  cbn [run_with].
  destruct (exec (handle e) s) as [s1 o1]. cbn [fst snd].
  destruct (run_with handle s1 evs) as [s2 o2].
  reflexivity.
Qed.

Lemma run_with_app (s : St) (l1 l2 : list Ev) :
  run_with handle s (l1 ++ l2) =
  (fst (run_with handle (fst (run_with handle s l1)) l2),
   snd (run_with handle s l1)
     ++ snd (run_with handle (fst (run_with handle s l1)) l2)).
Proof.
  revert s.
  induction l1 as [|e l1 IH]; intros s.
  - cbn. now destruct (run_with handle s l2).
  - rewrite <- app_comm_cons, !run_with_cons, IH.
    cbn [fst snd]. now rewrite app_assoc.
Qed.
End RunFacts.

(** ** The reader *)

Module ReaderFacts.
Import Reader.

Lemma final_cons s e evs :
  final s (e :: evs) = final (fst (exec (handle e) s)) evs.
Proof. unfold final, run. now rewrite run_with_cons. Qed.

Lemma effects_cons s e evs :
  effects s (e :: evs) =
  snd (exec (handle e) s) ++ effects (fst (exec (handle e) s)) evs.
Proof. unfold effects, run. now rewrite run_with_cons. Qed.

Lemma final_app s l1 l2 : final s (l1 ++ l2) = final (final s l1) l2.
Proof. unfold final, run. now rewrite run_with_app. Qed.

Lemma effects_app s l1 l2 :
  effects s (l1 ++ l2) = effects s l1 ++ effects (final s l1) l2.
Proof. unfold effects, final, run. now rewrite run_with_app. Qed.

(** Unfolding a handler on a state given by its fields; [push] and [shift]
    are kept folded and rewritten by their equations below. *)
Ltac machine :=
  cbv [exec handle apply_op read stop request_callback row_listener send
       invoke finally_close release_request
       bind ret get modify emit when
       set_error set_callback set_stopped set_done set_paused set_received
       set_request set_close
       error callback stopped done paused received request close
       fst snd] in *.

Lemma push_eq record s :
  push record s =
  (tt,
   mkState (error s) (callback s) (stopped s) (done s)
     (if Nat.eqb (length (received s ++ [record])) high
      then true else paused s)
     (received s ++ [record]) (request s) (close s),
   if Nat.eqb (length (received s ++ [record])) high
   then [SocketPause] else []).
Proof.
  destruct s as [e c st d p l r h]. unfold push. machine.
  destruct (Nat.eqb (length (l ++ [record])) high); reflexivity.
Qed.

Lemma shift_eq s :
  shift s =
  (hd VUndefined (received s),
   mkState (error s) (callback s) (stopped s) (done s)
     (if Nat.eqb (length (received s)) (low + 1) then false else paused s)
     (tl (received s)) (request s) (close s),
   if Nat.eqb (length (received s)) (low + 1) then [SocketResume] else []).
Proof.
  destruct s as [e c st d p l r h]. unfold shift. machine.
  destruct (Nat.eqb (length l) (low + 1)); destruct l; reflexivity.
Qed.

(** *** The buffer *)

Lemma op_push record s :
  exec (apply_op (Push record)) s =
  (mkState (error s) (callback s) (stopped s) (done s)
     (if Nat.eqb (length (received s ++ [record])) high
      then true else paused s)
     (received s ++ [record]) (request s) (close s),
   if Nat.eqb (length (received s ++ [record])) high
   then [SocketPause] else []).
Proof. unfold exec, apply_op. now rewrite push_eq. Qed.

Lemma op_shift s :
  exec (apply_op Shift) s =
  (mkState (error s) (callback s) (stopped s) (done s)
     (if Nat.eqb (length (received s)) (low + 1) then false else paused s)
     (tl (received s)) (request s) (close s),
   if Nat.eqb (length (received s)) (low + 1) then [SocketResume] else []).
Proof.
  unfold exec, apply_op, bind. rewrite shift_eq. cbn.
  now rewrite app_nil_r.
Qed.

Lemma run_ops_cons s o ops :
  run_ops s (o :: ops) =
  (fst (run_ops (fst (exec (apply_op o) s)) ops),
   snd (exec (apply_op o) s)
     ++ snd (run_ops (fst (exec (apply_op o) s)) ops)).
Proof. unfold run_ops. apply run_with_cons. Qed.

Lemma honours_pause_app l1 : forall s l2,
  honours_pause s (l1 ++ l2) =
  honours_pause s l1 && honours_pause (fst (run_ops s l1)) l2.
Proof.
  induction l1 as [|o l1 IH]; intros s l2; [reflexivity|].
  rewrite <- app_comm_cons, run_ops_cons. cbn [honours_pause fst].
  rewrite IH. destruct o; destruct (paused s); reflexivity.
Qed.

Lemma within_step s o :
  within s -> honours_pause s [o] = true ->
  within (fst (exec (apply_op o) s)).
Proof.
  unfold within. intros [Hl Hp] Hh. destruct o as [record|].
  - rewrite op_push. cbn [fst received paused].
    cbn in Hh. destruct (paused s) eqn:Hps; [discriminate|].
    rewrite length_app. cbn [length]. unfold high in *.
    assert (length (received s) <> 2) by (intros H; now apply Hp in H).
    destruct (Nat.eqb_spec (length (received s) + 1) 2); split; auto; lia.
  - rewrite op_shift. cbn [fst received paused]. unfold high, low in *.
    destruct (received s) as [|v l]; cbn [tl length] in *.
    + split; [lia | discriminate].
    + split; lia.
Qed.

Lemma within_run ops : forall s,
  within s -> honours_pause s ops = true -> within (fst (run_ops s ops)).
Proof.
  induction ops as [|o ops IH]; intros s Hw Hh; [exact Hw|].
  change (o :: ops) with ([o] ++ ops) in Hh.
  rewrite honours_pause_app in Hh. apply andb_true_iff in Hh as [H1 H2].
  rewrite run_ops_cons. cbn [fst]. apply IH.
  - now apply within_step.
  - unfold run_ops in H2. cbn in H2.
    destruct (exec (apply_op o) s) as [s1 o1] eqn:E. exact H2.
Qed.

(** C3 (amended). The buffer never has fewer than 0 rows (its length is a
    natural number). A push asks the transport to pause exactly when it
    brings the length to [high], and a shift asks it to resume exactly
    when it removes a row and leaves [low] rows. As long as no row is
    pushed while the transport is paused, the length stays at most [high],
    and the pause is asked exactly on the transition into [high] rows. *)
Theorem buffer_watermarks (hook : bool) (pre : list op) (o : op) :
  let s := fst (run_ops (init hook) pre) in
  let s' := fst (exec (apply_op o) s) in
  let eff := snd (exec (apply_op o) s) in
  (In SocketPause eff <->
     is_push o = true /\ length (received s') = high) /\
  (In SocketResume eff <->
     length (received s') < length (received s) /\
     length (received s') = low) /\
  (honours_pause (init hook) (pre ++ [o]) = true ->
     length (received s') <= high /\
     (In SocketPause eff <->
        length (received s) <> high /\ length (received s') = high)).
Proof.
  intros s s' eff.
  assert (In SocketPause eff <->
          is_push o = true /\ length (received s') = high) as Hpause.
  { unfold eff, s'. destruct o as [record|].
    - rewrite op_push. cbn [fst snd received is_push].
      destruct (Nat.eqb_spec (length (received s ++ [record])) high);
        cbn; intuition congruence.
    - rewrite op_shift. cbn [fst snd received is_push].
      destruct (Nat.eqb (length (received s)) (low + 1)); cbn;
        intuition congruence. }
  split; [exact Hpause|]. split.
  - unfold eff, s'. destruct o as [record|].
    + rewrite op_push. cbn [fst snd received]. rewrite length_app.
      cbn [length].
      destruct (Nat.eqb (length (received s) + 1) high); cbn;
        intuition (try congruence; try lia).
    + rewrite op_shift. cbn [fst snd received]. unfold low.
      destruct (received s) as [|v l]; cbn; [intuition lia|].
      destruct (Nat.eqb_spec (length l) 0) as [E|E].
      * rewrite E. cbn. intuition lia.
      * destruct (length l) eqn:El; [congruence|]. cbn.
        intuition (try congruence; try lia).
  - intros Hh. rewrite honours_pause_app in Hh.
    apply andb_true_iff in Hh as [H1 H2].
    assert (within s) as Hs.
    { apply within_run; [|exact H1]. split; cbn; [lia | discriminate]. }
    pose proof (within_step s o Hs H2) as Hs'.
    fold s' in Hs'. split; [apply Hs'|].
    rewrite Hpause. unfold s'. destruct o as [record|].
    + rewrite op_push. cbn [fst received is_push]. rewrite length_app.
      cbn [length]. intuition lia.
    + rewrite op_shift. cbn [fst received is_push].
      destruct Hs as [Hl _]. destruct (received s) as [|v l];
        cbn [tl length] in *; intuition (try congruence; try lia).
Qed.

Lemma buffer_watermarks_witness :
  honours_pause (init false)
    ([Push (VNum 1); Shift; Push (VNum 2)] ++ [Push (VNum 3)]) = true /\
  length (received (fst (exec (apply_op (Push (VNum 3)))
    (fst (run_ops (init false) [Push (VNum 1); Shift; Push (VNum 2)])))))
    <= high.
Proof.
  split; [reflexivity|].
  apply (buffer_watermarks false [Push (VNum 1); Shift; Push (VNum 2)]
           (Push (VNum 3))).
  reflexivity.
Defined.

(** C3 as stated fails: three rows pushed in a row (rows that arrive
    although the transport was asked to pause) leave three rows in the
    buffer, above [high]; when a shift then brings the length back to
    [high], no pause is asked; and three row events with no call of the
    read function in between are three such pushes. *)
Lemma buffer_exceeds_high :
  length (received (fst (run_ops (init false)
    [Push (VNum 1); Push (VNum 2); Push (VNum 3)]))) = 3 /\
  ~ 3 <= high /\
  run_ops (init false) [Push (VNum 1); Push (VNum 2); Push (VNum 3); Shift]
  = (mkState VNull None false false true [VNum 2; VNum 3] true false,
     [SocketPause]) /\
  received (final (init false)
    [Row (sample_row 1); Row (sample_row 2); Row (sample_row 3)])
  = [sample_row 1; sample_row 2; sample_row 3].
Proof. repeat split. unfold high. lia. Qed.

(** *** While rows are expected *)

Lemma js_or_falsy a b :
  truthy a = false -> truthy b = false -> truthy (js_or a b) = false.
Proof. unfold js_or. intros Ha Hb. now rewrite Ha. Qed.

Lemma js_or_keeps a b : truthy a = false -> js_or a b = b.
Proof. unfold js_or. now intros ->. Qed.

Lemma expecting_step s e :
  expecting s -> streaming e = true ->
  expecting (fst (exec (handle e) s)).
Proof.
  unfold expecting. destruct s as [er c st d p l r h].
  cbn [error callback stopped done paused received request close].
  intros (He & -> & -> & -> & Hc) Hs.
  destruct e as [v| | | |]; try discriminate; cbn [streaming] in Hs.
  - destruct h; machine; rewrite Hs; destruct Hc as [->|[-> ->]];
      rewrite ?push_eq; cbn; rewrite ?js_or_falsy; auto 10.
  - destruct h; machine; rewrite He; destruct Hc as [->|[-> ->]];
      try destruct l as [|v l]; rewrite ?shift_eq; cbn; auto 10.
Qed.

Lemma expecting_run evs : forall s,
  expecting s -> forallb streaming evs = true -> expecting (final s evs).
Proof.
  induction evs as [|e evs IH]; intros s Hs He; [exact Hs|].
  cbn in He. apply andb_true_iff in He as [He1 He2].
  rewrite final_cons. apply IH; [|exact He2]. now apply expecting_step.
Qed.

Lemma expecting_init hook : expecting (init hook).
Proof. unfold expecting; cbn; auto 10. Qed.

Lemma reads_app o1 o2 : reads (o1 ++ o2) = reads o1 ++ reads o2.
Proof.
  induction o1 as [|[| | | | |[|] err res| |] o1 IH]; cbn; auto.
  now rewrite IH.
Qed.

Lemma stops_app o1 o2 : stops (o1 ++ o2) = stops o1 ++ stops o2.
Proof.
  induction o1 as [|[| | | | |[|] err res| |] o1 IH]; cbn; auto.
  now rewrite IH.
Qed.

Lemma rows_app l1 l2 : rows (l1 ++ l2) = rows l1 ++ rows l2.
Proof.
  induction l1 as [|[v| | | |] l1 IH]; cbn; auto. now rewrite IH.
Qed.

Lemma count_reads_app l1 l2 :
  count_reads (l1 ++ l2) = count_reads l1 + count_reads l2.
Proof. unfold count_reads. now rewrite filter_app, length_app. Qed.

Lemma count_stops_app l1 l2 :
  count_stops (l1 ++ l2) = count_stops l1 + count_stops l2.
Proof. unfold count_stops. now rewrite filter_app, length_app. Qed.

(** One event while rows are expected and the consumer makes one call at
    a time: what was returned and what is buffered make up what was
    buffered and what arrived, and every call of the read function has
    returned or is the one parked. *)
Lemma streaming_step s e :
  expecting s -> streaming e = true ->
  sequential s [e] = true ->
  reads (snd (exec (handle e) s))
    ++ map Returns (received (fst (exec (handle e) s)))
  = map Returns (received s ++ rows [e]) /\
  length (reads (snd (exec (handle e) s)))
    + waiting (fst (exec (handle e) s))
  = waiting s + count_reads [e].
Proof.
  unfold expecting, waiting. destruct s as [er c st d p l r h].
  cbn [error callback stopped done paused received request close].
  intros (He & -> & -> & -> & Hc) Hs Hq.
  destruct e as [v| | | |]; try discriminate; cbn [streaming] in Hs.
  - clear Hq.
    destruct h; machine; rewrite Hs; destruct Hc as [->|[-> ->]];
      rewrite ?push_eq; cbn;
      try destruct (Nat.eqb (length (l ++ [v])) high); cbn;
      unfold wait_result; cbn; auto.
  - cbn in Hq. destruct c; [discriminate|]. clear Hq Hc.
    destruct h; machine; rewrite He; destruct l as [|v l];
      rewrite ?shift_eq; cbn; auto;
      destruct (Nat.eqb (length l) 0); cbn; unfold wait_result; cbn;
      rewrite app_nil_r; auto.
Qed.

Lemma sequential_cons s e evs :
  sequential s (e :: evs) =
  sequential s [e] && sequential (fst (exec (handle e) s)) evs.
Proof.
  cbn [sequential]. destruct e; destruct (callback s); cbn;
    now rewrite ?andb_true_r.
Qed.

Lemma sequential_app l1 : forall s l2,
  sequential s (l1 ++ l2) =
  sequential s l1 && sequential (final s l1) l2.
Proof.
  induction l1 as [|e l1 IH]; intros s l2; [reflexivity|].
  rewrite <- app_comm_cons, sequential_cons, (sequential_cons s e l1).
  rewrite final_cons, IH. now rewrite andb_assoc.
Qed.

Lemma streaming_run evs : forall s,
  expecting s -> forallb streaming evs = true ->
  sequential s evs = true ->
  reads (effects s evs) ++ map Returns (received (final s evs))
  = map Returns (received s ++ rows evs) /\
  length (reads (effects s evs)) + waiting (final s evs)
  = waiting s + count_reads evs.
Proof.
  induction evs as [|e evs IH]; intros s Hs He Hq.
  - cbn. rewrite app_nil_r. auto.
  - cbn in He. apply andb_true_iff in He as [He1 He2].
    rewrite sequential_cons in Hq. apply andb_true_iff in Hq as [Hq1 Hq2].
    destruct (streaming_step s e Hs He1 Hq1) as [H1 H2].
    destruct (IH _ (expecting_step s e Hs He1) He2 Hq2) as [H3 H4].
    rewrite final_cons, effects_cons, reads_app, length_app.
    change (e :: evs) with ([e] ++ evs).
    rewrite rows_app, count_reads_app. split; [|lia].
    rewrite <- app_assoc, H3, map_app, app_assoc, H1.
    now rewrite !map_app, app_assoc.
Qed.

(** *** Reads of a stream that has ended *)

Lemma drain_nil n : drain n [] = repeat end_of_stream n.
Proof. induction n as [|n IH]; cbn; [reflexivity | now rewrite IH]. Qed.

Lemma drain_firstn n : forall m l,
  n <= m ->
  firstn n (map Returns l ++ repeat end_of_stream m) = drain n l.
Proof.
  induction n as [|n IH]; intros m l Hm; [reflexivity|].
  destruct l as [|v l]; cbn.
  - destruct m as [|m]; [lia|]. cbn. f_equal.
    apply (IH m []). lia.
  - f_equal. apply IH. lia.
Qed.

Lemma drain_add a : forall b l,
  drain (a + b) l = drain a l ++ drain b (skipn a l).
Proof.
  induction a as [|a IH]; intros b l; [reflexivity|].
  destruct l as [|v l]; cbn; f_equal.
  - rewrite (IH b []). now destruct a.
  - apply IH.
Qed.

Lemma drain_prefix P : forall B R k,
  P ++ map Returns B = map Returns R ->
  drain (length P + k) R = P ++ drain k B.
Proof.
  induction P as [|x P IH]; intros B R k H.
  - cbn in *. f_equal. revert R H.
    induction B as [|v B IHB]; intros [|r R] H; try discriminate; auto.
    injection H as -> H. f_equal. now apply IHB.
  - destruct R as [|r R]; [discriminate|].
    injection H as -> H. cbn. f_equal. now apply IH.
Qed.

Lemma ended_step t e :
  ended t -> request t = false \/ is_call e = true ->
  ended (fst (exec (handle e) t)) /\
  (request t = false -> request (fst (exec (handle e) t)) = false) /\
  received (fst (exec (handle e) t)) =
    skipn (count_reads [e]) (received t) /\
  reads (snd (exec (handle e) t)) = drain (count_reads [e]) (received t) /\
  stops (snd (exec (handle e) t)) = repeat end_of_stream (count_stops [e]).
Proof.
  unfold ended. destruct t as [er c st d p l r h].
  cbn [error callback stopped done paused received request close].
  intros (He & -> & ->) Hr.
  destruct e as [v|err| | |].
  - destruct Hr as [->|Hr]; [|discriminate]. machine. cbn. auto 10.
  - destruct Hr as [->|Hr]; [|discriminate]. machine. cbn. auto 10.
  - clear Hr.
    destruct h, r; machine; rewrite He; destruct l as [|v l];
      rewrite ?shift_eq; cbn; unfold wait_result; cbn;
      try destruct (Nat.eqb (length l) 0); cbn; auto 10.
  - clear Hr. destruct h; machine; cbn; auto 10.
  - clear Hr. destruct h; machine; cbn; auto 10.
Qed.

Lemma ended_run post : forall t,
  ended t -> request t = false \/ forallb is_call post = true ->
  reads (effects t post) = drain (count_reads post) (received t) /\
  stops (effects t post) = repeat end_of_stream (count_stops post).
Proof.
  induction post as [|e post IH]; intros t Ht Hr; [now cbn|].
  assert (request t = false \/ is_call e = true) as Hr1.
  { destruct Hr as [Hr|Hr]; [now left | right].
    cbn in Hr. now apply andb_true_iff in Hr. }
  destruct (ended_step t e Ht Hr1) as (Ht' & Hq & Hl & Hrd & Hst).
  destruct (IH (fst (exec (handle e) t)) Ht') as [Hrd' Hst'].
  { destruct Hr as [Hr|Hr]; [left; auto | right].
    cbn in Hr. now apply andb_true_iff in Hr. }
  rewrite effects_cons, reads_app, stops_app, Hrd, Hst, Hrd', Hst', Hl.
  change (e :: post) with ([e] ++ post).
  rewrite count_reads_app, count_stops_app, drain_add, repeat_app.
  auto.
Qed.

(** A clean completion while rows were expected. *)
Lemma completion_clean s err :
  expecting s -> truthy err = false ->
  ended (fst (exec (handle (Completed err)) s)) /\
  request (fst (exec (handle (Completed err)) s)) = false /\
  received (fst (exec (handle (Completed err)) s)) = received s /\
  reads (snd (exec (handle (Completed err)) s)) =
    repeat end_of_stream (waiting s).
Proof.
  unfold expecting, ended, waiting. destruct s as [er c st d p l r h].
  cbn [error callback stopped done paused received request close].
  intros (He & -> & -> & -> & Hc) Herr.
  destruct h; machine; destruct Hc as [->|[-> ->]]; cbn;
    rewrite ?js_or_falsy; auto 10.
Qed.

Lemma reads_only evs :
  forallb is_read evs = true -> forallb is_call evs = true.
Proof.
  induction evs as [|e evs IH]; cbn; auto.
  intros H. apply andb_true_iff in H as [H1 H2].
  unfold is_call at 1. now rewrite H1, IH.
Qed.

(** C1 (amended). Rows as the driver delivers them (truthy values) and
    calls of the read function made one at a time, in any interleaving,
    then a clean completion and further calls: the successive calls return
    the rows in their order of arrival and then the end of the stream,
    which every later call returns again. *)
Theorem reads_in_arrival_order
  (hook : bool) (evs1 evs2 : list event) (err : value) :
  forallb streaming evs1 = true ->
  forallb is_read evs2 = true ->
  truthy err = false ->
  sequential (init hook) (evs1 ++ Completed err :: evs2) = true ->
  let n := count_reads evs1 + count_reads evs2 in
  reads (effects (init hook) (evs1 ++ Completed err :: evs2)) =
  firstn n (map Returns (rows evs1) ++ repeat end_of_stream n).
Proof.
  intros H1 H2 Herr Hseq n.
  rewrite sequential_app in Hseq. apply andb_true_iff in Hseq as [Hseq _].
  pose proof (expecting_init hook) as Hi.
  destruct (streaming_run evs1 _ Hi H1 Hseq) as [Hrows Hcount].
  pose proof (expecting_run evs1 _ Hi H1) as Hs.
  destruct (completion_clean _ err Hs Herr) as (Ht & Hr & Hl & Hc).
  destruct (ended_run evs2 _ Ht (or_introl Hr)) as [Hd _].
  rewrite effects_app, effects_cons, !reads_app, Hc, Hd, Hl.
  rewrite drain_firstn by lia. unfold n.
  cbn [init received app waiting callback] in Hrows, Hcount.
  set (s := final (init hook) evs1) in *.
  set (P := reads (effects (init hook) evs1)) in *.
  destruct Hs as (_ & _ & _ & _ & [Hcb|[Hcb Hbuf]]);
    unfold waiting in *; rewrite Hcb in *; cbn [repeat app].
  - replace (count_reads evs1) with (length P) by lia.
    symmetry. now apply drain_prefix.
  - rewrite Hbuf in *. cbn [map] in Hrows. rewrite app_nil_r in Hrows.
    replace (count_reads evs1 + count_reads evs2)
      with (length P + S (count_reads evs2)) by lia.
    rewrite (drain_prefix P [] (rows evs1)) by now rewrite app_nil_r.
    reflexivity.
Qed.

Lemma reads_in_arrival_order_witness :
  forallb streaming
    [Read; Row (sample_row 1); Row (sample_row 2); Row (sample_row 3);
     Read; Read] = true /\
  sequential (init true)
    ([Read; Row (sample_row 1); Row (sample_row 2); Row (sample_row 3);
      Read; Read] ++ Completed VNull :: [Read; Read]) = true /\
  reads (effects (init true)
    ([Read; Row (sample_row 1); Row (sample_row 2); Row (sample_row 3);
      Read; Read] ++ Completed VNull :: [Read; Read])) =
  [Returns (sample_row 1); Returns (sample_row 2); Returns (sample_row 3);
   end_of_stream; end_of_stream].
Proof.
  split; [reflexivity|]. split; [reflexivity|].
  exact (reads_in_arrival_order true
           [Read; Row (sample_row 1); Row (sample_row 2);
            Row (sample_row 3); Read; Read]
           [Read; Read] VNull eq_refl eq_refl eq_refl eq_refl).
Defined.

(** C1 as stated fails. The end of the stream is returned again by every
    call made after it; and a falsy row is never returned: it ends the
    stream for the reader, although a later row is still buffered and
    returned after it. *)
Lemma end_of_stream_repeats :
  reads (effects (init false)
    [Row (sample_row 1); Read; Completed VNull; Read; Read]) =
  [Returns (sample_row 1); end_of_stream; end_of_stream] /\
  reads (effects (init false)
    [Read; Row (VNum 0); Row (sample_row 2); Completed VNull; Read; Read]) =
  [end_of_stream; Returns (sample_row 2); end_of_stream].
Proof. split; reflexivity. Qed.

(** *** A cached error *)

Lemma cached_error_reads n : forall t,
  truthy (error t) = true ->
  reads (effects t (repeat Read n)) = repeat (Throws (error t)) n /\
  received (final t (repeat Read n)) = received t.
Proof.
  induction n as [|n IH]; intros t Ht; [now cbn|].
  cbn [repeat]. rewrite effects_cons, final_cons, reads_app.
  assert (reads (snd (exec (handle Read) t)) = [Throws (error t)] /\
          error (fst (exec (handle Read) t)) = error t /\
          received (fst (exec (handle Read) t)) = received t)
    as (Hr & He & Hl).
  { destruct t as [er c st d p l r h].
    cbn [error callback stopped done paused received request close] in *.
    destruct h, r; machine; rewrite Ht; cbn; unfold wait_result;
      rewrite Ht; auto. }
  destruct (IH (fst (exec (handle Read) t))) as [Hr' Hl'];
    [now rewrite He|].
  now rewrite Hr, Hr', Hl', He, Hl.
Qed.

(** C2 (amended). When the completion event carries an error while no call
    is blocked, the error is cached and every call of the read function
    from then on throws it, whether or not rows are buffered; the buffered
    rows stay in the buffer and are not returned. *)
Theorem cached_error_hides_buffered_rows
  (hook : bool) (pre : list event) (err : value) (n : nat) :
  forallb streaming pre = true ->
  callback (final (init hook) pre) = None ->
  truthy err = true ->
  let s := final (init hook) pre in
  reads (effects s (Completed err :: repeat Read n)) =
    repeat (Throws err) n /\
  received (final s (Completed err :: repeat Read n)) = received s.
Proof.
  intros Hpre Hcb Herr s.
  pose proof (expecting_run pre _ (expecting_init hook) Hpre) as Hs.
  fold s in Hs, Hcb.
  assert (reads (snd (exec (handle (Completed err)) s)) = [] /\
          error (fst (exec (handle (Completed err)) s)) = err /\
          received (fst (exec (handle (Completed err)) s)) = received s)
    as (Hr & He & Hl).
  { clearbody s. unfold expecting in Hs. destruct s as [er c st d p l r h].
    cbn [error callback stopped done paused received request close] in *.
    destruct Hs as (Her & -> & -> & -> & _). subst c.
    machine. cbn. now rewrite js_or_keeps. }
  destruct (cached_error_reads n (fst (exec (handle (Completed err)) s)))
    as [Hr' Hl']; [now rewrite He|].
  now rewrite effects_cons, final_cons, reads_app, Hr, Hr', Hl', He, Hl.
Qed.

Lemma cached_error_hides_buffered_rows_witness :
  forallb streaming [Row (sample_row 1); Row (sample_row 2)] = true /\
  callback (final (init false) [Row (sample_row 1); Row (sample_row 2)]) =
    None /\
  truthy sample_error = true /\
  reads (effects (final (init false)
                    [Row (sample_row 1); Row (sample_row 2)])
           (Completed sample_error :: repeat Read 3)) =
    repeat (Throws sample_error) 3.
Proof.
  repeat (split; [reflexivity|]).
  apply (cached_error_hides_buffered_rows false
           [Row (sample_row 1); Row (sample_row 2)] sample_error 3);
    reflexivity.
Defined.

(** C2 as stated fails: with a row buffered when the completion event
    brings an error, the next call throws the error, and the row is still
    in the buffer. *)
Lemma error_before_buffered_row :
  reads (effects (init false)
    [Row (sample_row 1); Completed sample_error; Read]) =
  [Throws sample_error] /\
  received (final (init false)
    [Row (sample_row 1); Completed sample_error; Read]) = [sample_row 1].
Proof. split; reflexivity. Qed.

(** *** Stopping *)

Lemma drain_never_throws n : forall l e, ~ In (Throws e) (drain n l).
Proof.
  induction n as [|n IH]; intros l e; [now cbn|].
  destruct l as [|v l]; cbn; intros [H|H]; try discriminate;
    now apply IH in H.
Qed.

Lemma rows_after_stop mid : forall u,
  stopped u = true -> forallb is_row mid = true ->
  run u mid = (u, []).
Proof.
  induction mid as [|e mid IH]; intros u Hu Hm; [reflexivity|].
  cbn in Hm. apply andb_true_iff in Hm as [Hm1 Hm2].
  unfold run in *. rewrite run_with_cons.
  assert (exec (handle e) u = (u, [])) as ->.
  { destruct e as [v| | | |]; try discriminate.
    destruct u as [er c st d p l r h]. cbn in Hu. subst.
    destruct r; machine; reflexivity. }
  cbn [fst snd]. now rewrite (IH u Hu Hm2).
Qed.

(** C6 (amended). After truthy rows and calls of the read function only
    (so that [done] is not set), [stop] called while no call is blocked
    and before the completion event: the rows that arrive afterwards are
    dropped, whatever error the completion event then carries is discarded
    and [stop] returns normally; afterwards no call throws: the calls of
    the read function return the rows that were buffered when [stop] was
    called, in order, and then the end of the stream, and further calls of
    [stop] return at once. *)
Theorem stop_discards_error
  (hook : bool) (pre mid post : list event) (err : value) :
  forallb streaming pre = true ->
  callback (final (init hook) pre) = None ->
  forallb is_row mid = true ->
  let s := final (init hook) pre in
  let o := effects s (Stop :: mid ++ Completed err :: post) in
  let n := count_reads post in
  received (final s (Stop :: mid)) = received s /\
  stops o = repeat end_of_stream (1 + count_stops post) /\
  reads o = firstn n (map Returns (received s) ++ repeat end_of_stream n) /\
  (forall e, ~ In (Throws e) (stops o ++ reads o)).
Proof.
  intros Hpre Hcb Hmid s o n.
  pose proof (expecting_run pre _ (expecting_init hook) Hpre) as Hs.
  fold s in Hs, Hcb.
  set (u := fst (exec (handle Stop) s)).
  assert (snd (exec (handle Stop) s) = [Cancel] /\ stopped u = true /\
          received u = received s /\ callback u = Some StopCall /\
          truthy (error u) = false /\ request u = true /\ done u = false)
    as (Hso & Hst & Hl & Hc & He & Hr & Hd).
  { unfold u. clearbody s. unfold expecting in Hs.
    destruct s as [er c st d p l r h].
    cbn [error callback stopped done paused received request close] in *.
    destruct Hs as (Her & -> & -> & -> & _). subst c.
    machine. cbn. auto 10. }
  pose proof (rows_after_stop mid u Hst Hmid) as Hrun.
  set (t := fst (exec (handle (Completed err)) u)).
  assert (ended t /\ request t = false /\ received t = received s /\
          reads (snd (exec (handle (Completed err)) u)) = [] /\
          stops (snd (exec (handle (Completed err)) u)) = [end_of_stream])
    as (Ht & Hrt & Hlt & Hrc & Hsc).
  { unfold t, ended. rewrite <- Hl. clearbody u. clear Hrun.
    destruct u as [er c st d p l r h].
    cbn [error callback stopped done paused received request close] in *.
    subst. destruct h; machine; cbn; auto 10. }
  destruct (ended_run post t Ht (or_introl Hrt)) as [Hrd Hsd].
  assert (final s (Stop :: mid) = u) as Hfin.
  { rewrite final_cons. fold u. unfold final. now rewrite Hrun. }
  assert (stops o = repeat end_of_stream (1 + count_stops post) /\
          reads o = drain n (received s)) as [Hso' Hro'].
  { unfold o. change (Stop :: mid ++ Completed err :: post)
      with ((Stop :: mid) ++ Completed err :: post).
    rewrite effects_app, Hfin, (effects_cons s Stop mid), Hso.
    fold u. unfold effects at 1 3. rewrite Hrun. cbn [snd app].
    rewrite effects_cons. fold t.
    cbn [stops reads].
    rewrite !stops_app, !reads_app, Hrc, Hsc, Hrd, Hsd, Hlt.
    now cbn. }
  split; [now rewrite Hfin|]. split; [exact Hso'|].
  split; [rewrite Hro'; symmetry; now apply drain_firstn|].
  intros e Hin. rewrite Hso', Hro' in Hin.
  apply in_app_or in Hin as [Hin|Hin].
  - apply repeat_spec in Hin. discriminate.
  - now apply drain_never_throws in Hin.
Qed.

Lemma stop_discards_error_witness :
  forallb streaming [Row (sample_row 1); Row (sample_row 2); Read] = true /\
  callback (final (init true)
              [Row (sample_row 1); Row (sample_row 2); Read]) = None /\
  forallb is_row [Row (sample_row 3)] = true /\
  reads (effects (final (init true)
                    [Row (sample_row 1); Row (sample_row 2); Read])
           (Stop :: [Row (sample_row 3)]
              ++ Completed sample_error :: [Read; Read; Stop])) =
    [Returns (sample_row 2); end_of_stream].
Proof.
  repeat (split; [reflexivity|]).
  apply (stop_discards_error true
           [Row (sample_row 1); Row (sample_row 2); Read]
           [Row (sample_row 3)] [Read; Read; Stop] sample_error);
    reflexivity.
Defined.

(** C6 as stated fails. A row buffered before [stop] is returned by the
    call of the read function that follows it, which therefore does not
    report the end of the stream. And after a falsy row, which sets [done],
    [stop] returns at once without cancelling or setting [stopped]: the
    error of the completion event is then cached, and thrown by the next
    call of the read function. *)
Lemma read_after_stop_returns_buffered_row :
  reads (effects (init false)
    [Row (sample_row 1); Stop; Completed sample_error; Read]) =
  [Returns (sample_row 1)] /\
  Returns (sample_row 1) <> end_of_stream /\
  effects (init false) [Row (VNum 0); Stop; Completed sample_error; Read] =
  [Invoke StopCall VUndefined VUndefined; RemoveAllListeners;
   Invoke ReadCall sample_error VUndefined] /\
  reads (effects (init false)
    [Row (VNum 0); Stop; Completed sample_error; Read]) =
  [Throws sample_error].
Proof. repeat split. discriminate. Qed.

(** *** A falsy row *)

(** C10 (amended). A falsy row that arrives while rows are expected is
    neither buffered nor returned, and it sets [done]: a blocked call of
    the read function returns the end of the stream at once; with no call
    blocked, nothing is called, and the next calls return the rows already
    buffered, in order, and only then the end of the stream. Once the
    reader is stopped a row, falsy or not, changes nothing, [done]
    included. *)
Theorem falsy_row_ends_stream
  (hook : bool) (pre : list event) (v : value) (n : nat) :
  forallb streaming pre = true ->
  truthy v = false ->
  let s := final (init hook) pre in
  let s' := final s [Row v] in
  received s' = received s /\
  done s' = true /\
  match callback s with
  | Some _ => reads (effects s [Row v]) = [end_of_stream]
  | None =>
      effects s [Row v] = [] /\
      reads (effects s' (repeat Read n)) =
        firstn n (map Returns (received s) ++ repeat end_of_stream n)
  end /\
  (forall t, stopped t = true -> exec (handle (Row v)) t = (t, [])).
Proof.
  intros Hpre Hv s s'.
  pose proof (expecting_run pre _ (expecting_init hook) Hpre) as Hs.
  fold s in Hs.
  assert (received s' = received s /\ done s' = true /\
          match callback s with
          | Some _ => reads (effects s [Row v]) = [end_of_stream]
          | None => effects s [Row v] = [] /\ ended s'
          end) as (Hl & Hd & Hcb).
  { unfold s', final, effects, run. rewrite run_with_cons. cbn [fst snd run_with].
    rewrite app_nil_r.
    clearbody s. unfold expecting, ended in *.
    destruct s as [er c st d p l r h].
    cbn [error callback stopped done paused received request close] in *.
    destruct Hs as (Her & -> & -> & -> & Hc).
    destruct h; machine; rewrite Hv; destruct Hc as [->|[-> ->]]; cbn;
      rewrite ?js_or_falsy; auto 10. }
  split; [exact Hl|]. split; [exact Hd|]. split.
  - destruct (callback s); [exact Hcb|].
    destruct Hcb as [Ho Ht]. split; [exact Ho|].
    assert (forallb is_call (repeat Read n) = true) as Hcalls
      by (clear; induction n; cbn; auto).
    destruct (ended_run (repeat Read n) s' Ht (or_intror Hcalls))
      as [Hr _].
    assert (count_reads (repeat Read n) = n) as Hn
      by (clear; unfold count_reads; induction n; cbn; auto).
    rewrite Hr, Hn, Hl. symmetry. now apply drain_firstn.
  - intros t Ht. destruct t as [er c st d p l r h]. cbn in Ht. subst.
    destruct r; machine; reflexivity.
Qed.

Lemma falsy_row_ends_stream_witness :
  forallb streaming [Row (sample_row 1); Row (sample_row 2)] = true /\
  truthy (VNum 0) = false /\
  done (final (final (init false)
                 [Row (sample_row 1); Row (sample_row 2)])
          [Row (VNum 0)]) = true.
Proof.
  repeat (split; [reflexivity|]).
  apply (falsy_row_ends_stream false
           [Row (sample_row 1); Row (sample_row 2)] (VNum 0) 0);
    reflexivity.
Defined.

(** C10 as stated fails: with a row buffered, the call of the read
    function that follows a falsy row returns that row, not the end of
    the stream; and for a stopped reader the falsy row does not set
    [done]. *)
Lemma read_after_falsy_row_returns_buffered_row :
  reads (effects (init false) [Row (sample_row 1); Row (VNum 0); Read]) =
  [Returns (sample_row 1)] /\
  Returns (sample_row 1) <> end_of_stream /\
  done (final (init false) [Stop; Row (VNum 0)]) = false.
Proof. repeat split. discriminate. Qed.

(** *** The release hook *)

(** Only a resuming call runs the hook, and it clears it. *)
Lemma hook_step s e :
  filter is_close (snd (exec (handle e) s)) =
    (if is_resumed e && close s then [Close] else []) /\
  close (fst (exec (handle e) s)) = close s && negb (is_resumed e).
Proof.
  destruct s as [er c st d p l r h]. destruct e as [v|err| | |].
  - destruct h, r, st, c as [[|]|], (truthy v) eqn:Hv; machine;
      rewrite ?Hv; rewrite ?push_eq; cbn;
      try destruct (Nat.eqb (length (l ++ [v])) high); cbn; auto.
  - destruct h, r, st, c as [[|]|]; machine; cbn; auto.
  - destruct h, r, d, (truthy er) eqn:He, l as [|v l]; machine;
      rewrite ?He; rewrite ?shift_eq; cbn;
      try destruct (Nat.eqb (length l) 0); cbn; auto.
  - destruct h, d; machine; cbn; auto.
  - destruct h; machine; cbn; auto.
Qed.

Lemma hook_run evs : forall s,
  filter is_close (effects s evs) =
    (if existsb is_resumed evs && close s then [Close] else []) /\
  close (final s evs) = close s && negb (existsb is_resumed evs).
Proof.
  induction evs as [|e evs IH]; intros s.
  - cbn. now rewrite andb_true_r.
  - destruct (hook_step s e) as [H1 H2].
    destruct (IH (fst (exec (handle e) s))) as [I1 I2].
    rewrite effects_cons, final_cons, filter_app, H1, I1, I2, H2.
    cbn [existsb].
    destruct (is_resumed e), (existsb is_resumed evs), (close s);
      cbn; auto.
Qed.

Lemma before_resumed_clean evs :
  existsb is_resumed (before_resumed evs) = false.
Proof. induction evs as [|[v|err| | |] evs IH]; cbn; auto. Qed.

Lemma split_at_resumed evs :
  existsb is_resumed evs = true ->
  exists post, evs = before_resumed evs ++ Resumed :: post.
Proof.
  induction evs as [|e evs IH]; [discriminate|].
  destruct e as [v|err| | |]; cbn; intros H;
    try (destruct (IH H) as [post Hp]; exists post; now rewrite <- Hp).
  now exists evs.
Qed.

Lemma resumes_need_callback evs : forall called s,
  resumes_follow_callbacks called s evs = true ->
  existsb is_resumed evs = true ->
  0 < called
      + length (filter is_invoke (effects s (before_resumed evs))).
Proof.
  induction evs as [|e evs IH]; intros called s Hs Hr; [discriminate|].
  destruct e as [v|err| | |]; cbn [before_resumed];
    try (rewrite effects_cons, filter_app, length_app;
         cbn [resumes_follow_callbacks existsb is_resumed orb] in Hs, Hr;
         specialize (IH _ _ Hs Hr); lia).
  cbn [resumes_follow_callbacks] in Hs. destruct called; [discriminate|lia].
Qed.

(** C8 (amended). The release hook runs at most once in a run: it does not
    run before a call of the read function or of [stop] resumes; it runs
    when the first such call returns or throws, whatever that call yields;
    and it never runs again. A call resumes only after its callback was
    called, so that the hook never runs before a callback was called.
    Without a hook nothing runs. *)
Theorem release_hook_after_first_return (hook : bool) (evs : list event) :
  let pre := before_resumed evs in
  filter is_close (effects (init hook) pre) = [] /\
  snd (exec (handle Resumed) (final (init hook) pre)) =
    (if hook then [Close] else []) /\
  filter is_close (effects (init hook) evs) =
    (if hook && existsb is_resumed evs then [Close] else []) /\
  (resumes_follow_callbacks 0 (init hook) evs = true ->
   existsb is_resumed evs = true ->
   existsb is_invoke (effects (init hook) pre) = true).
Proof.
  intros pre.
  destruct (hook_run pre (init hook)) as [H1 H2].
  unfold pre in H1, H2. rewrite before_resumed_clean in H1, H2.
  cbn [andb negb init close] in H1, H2. rewrite andb_true_r in H2.
  split; [exact H1|]. split.
  - fold pre in H2. destruct (final (init hook) pre) as [er c st d p l r h].
    cbn in H2. subst. destruct hook; machine; reflexivity.
  - split.
    + destruct (hook_run evs (init hook)) as [H3 _]. rewrite H3.
      cbn [init close]. now rewrite andb_comm.
    + intros Hs Hr.
      pose proof (resumes_need_callback evs 0 (init hook) Hs Hr) as Hn.
      fold pre in Hn. cbn [Nat.add] in Hn.
      destruct (existsb is_invoke (effects (init hook) pre)) eqn:He;
        [reflexivity|].
      exfalso. revert Hn He. generalize (effects (init hook) pre).
      intros o. induction o as [|[] o IHo]; cbn; intros; try lia; auto;
        discriminate.
Qed.

Lemma release_hook_after_first_return_witness :
  resumes_follow_callbacks 0 (init true)
    [Read; Row (sample_row 1); Row (sample_row 2); Row (sample_row 3);
     Resumed; Read; Resumed] = true /\
  effects (init true)
    [Read; Row (sample_row 1); Row (sample_row 2); Row (sample_row 3);
     Resumed; Read; Resumed] =
  [Invoke ReadCall VNull (sample_row 1); SocketPause; Close;
   Invoke ReadCall VUndefined (sample_row 2)] /\
  existsb is_invoke (effects (init true)
    (before_resumed
       [Read; Row (sample_row 1); Row (sample_row 2); Row (sample_row 3);
        Resumed; Read; Resumed])) = true.
Proof.
  split; [reflexivity|]. split; [reflexivity|].
  apply (release_hook_after_first_return true
           [Read; Row (sample_row 1); Row (sample_row 2);
            Row (sample_row 3); Resumed; Read; Resumed]);
    reflexivity.
Defined.

(** C8 as stated fails: the hook runs when the first call of the read
    function returns, although that call returned a row, the stream has
    not ended and a row is still buffered. *)
Lemma release_hook_before_terminal_read :
  run (init true) [Row (sample_row 1); Row (sample_row 2); Read; Resumed] =
  (mkState VNull None false false true [sample_row 2] true false,
   [SocketPause; Invoke ReadCall VUndefined (sample_row 1); Close]).
Proof. reflexivity. Qed.

(** *** Runs without the moments at which calls resume *)

Lemma resumed_only_closes s :
  set_close false (fst (exec (handle Resumed) s)) = set_close false s /\
  no_close (snd (exec (handle Resumed) s)) = [].
Proof. destruct s as [er c st d p l r [|]]; machine; cbn; auto. Qed.

Lemma close_not_read s e :
  is_resumed e = false ->
  exec (handle e) (set_close false s) =
    (set_close false (fst (exec (handle e) s)), snd (exec (handle e) s)) /\
  no_close (snd (exec (handle e) s)) = snd (exec (handle e) s).
Proof.
  destruct s as [er c st d p l r h]. destruct e as [v|err| | |];
    intros He; try discriminate.
  - destruct h, r, st, c as [[|]|], (truthy v) eqn:Hv; machine;
      rewrite ?Hv; rewrite ?push_eq; cbn;
      try destruct (Nat.eqb (length (l ++ [v])) high); cbn; auto.
  - destruct h, r, st, c as [[|]|]; machine; cbn; auto.
  - destruct h, r, d, (truthy er) eqn:Her, l as [|v l]; machine;
      rewrite ?Her; rewrite ?shift_eq; cbn;
      try destruct (Nat.eqb (length l) 0); cbn; auto.
  - destruct h, d; machine; cbn; auto.
Qed.

(** The moments at which calls resume touch nothing but the release hook:
    a run and the same run without them end in the same state, the hook
    apart, and do the same things in the same order, the calls of the hook
    apart. What is proved of the runs without them therefore holds, the
    hook apart, of the runs with them. *)
Lemma resumed_erasure evs : forall s,
  set_close false (final s evs) =
    final (set_close false s) (without_resumed evs) /\
  no_close (effects s evs) =
    effects (set_close false s) (without_resumed evs).
Proof.
  induction evs as [|e evs IH]; intros s; [now cbn|].
  rewrite final_cons, effects_cons. unfold no_close in *.
  rewrite filter_app. fold (no_close (snd (exec (handle e) s))).
  destruct (IH (fst (exec (handle e) s))) as [I1 I2].
  destruct (is_resumed e) eqn:He.
  - destruct e; try discriminate.
    destruct (resumed_only_closes s) as [R1 R2].
    change (without_resumed (Resumed :: evs)) with (without_resumed evs).
    now rewrite I1, I2, R1, R2.
  - destruct (close_not_read s e He) as [C1 C2].
    unfold without_resumed in *. cbn [filter]. rewrite He. cbn [negb].
    rewrite final_cons, effects_cons, C1, C2. cbn [fst snd].
    now rewrite I1, I2.
Qed.
(** In particular what the calls yield, what is buffered and the variables
    of the reader are those of the run without these moments, started
    without a hook. *)
Lemma resumed_irrelevant (hook : bool) (evs : list event) :
  reads (effects (init hook) evs) =
    reads (effects (init false) (without_resumed evs)) /\
  stops (effects (init hook) evs) =
    stops (effects (init false) (without_resumed evs)) /\
  set_close false (final (init hook) evs) =
    final (init false) (without_resumed evs).
Proof.
  destruct (resumed_erasure evs (init hook)) as [H1 H2].
  change (set_close false (init hook)) with (init false) in H1, H2.
  rewrite <- H2, H1.
  assert (forall o, reads (no_close o) = reads o /\
                    stops (no_close o) = stops o) as H.
  { unfold no_close. induction o as [|e o [IH1 IH2]]; [now cbn|].
    destruct e as [| | | | |[|] err res| |]; cbn; rewrite ?IH1, ?IH2; auto. }
  destruct (H (effects (init hook) evs)) as [-> ->]. auto.
Qed.
End ReaderFacts.

(** ** The writer *)

Module WriterFacts.
Import Writer.

Lemma writer_final_cons s e evs :
  final s (e :: evs) = final (fst (exec (handle e) s)) evs.
Proof. unfold final, run. now rewrite run_with_cons. Qed.

Lemma writer_effects_cons s e evs :
  effects s (e :: evs) =
  snd (exec (handle e) s) ++ effects (fst (exec (handle e) s)) evs.
Proof. unfold effects, run. now rewrite run_with_cons. Qed.

Lemma writer_final_app s l1 l2 : final s (l1 ++ l2) = final (final s l1) l2.
Proof. unfold final, run. now rewrite run_with_app. Qed.

Lemma writer_effects_app s l1 l2 :
  effects s (l1 ++ l2) = effects s l1 ++ effects (final s l1) l2.
Proof. unfold effects, final, run. now rewrite run_with_app. Qed.

(** Unfolding a handler on a state given by its fields. *)
Ltac writer_machine :=
  cbv [exec handle write send processError request_callback
       prepared_listener remove_error_listener
       bind ret get modify emit when
       set_done set_callback set_isPreparing set_pendingParamValues
       set_shouldUnprepare set_listening
       done callback isPreparing pendingParamValues shouldUnprepare
       listening fst snd app andb negb] in *.

Ltac step_cases s e :=
  destruct s as [d c p pv u l]; destruct e as [k obj| |err|err];
  writer_machine.

(** Only the [prepared] listener clears [isPreparing]. *)
Lemma isPreparing_step s e :
  isPreparing (fst (exec (handle e) s)) =
  if is_prepared e then false else isPreparing s.
Proof.
  step_cases s e; cbn [is_prepared].
  - destruct d; auto. destruct (is_undefined obj); cbn.
    + destruct p; auto.
    + unfold param_values. destruct (values_of obj); auto.
      destruct p; auto.
  - destruct u; auto. destruct pv; auto.
  - destruct p; auto. destruct c; auto.
  - destruct l; auto. destruct c; auto.
Qed.

Lemma isPreparing_run evs : forall s,
  isPreparing (final s evs) =
  isPreparing s && negb (existsb is_prepared evs).
Proof.
  induction evs as [|e evs IH]; intros s.
  - cbn. now rewrite andb_true_r.
  - rewrite writer_final_cons, IH, isPreparing_step. cbn [existsb].
    destruct (is_prepared e); cbn; auto. now rewrite andb_false_r.
Qed.

(** While the request is preparing, no handler issues an [execute]. *)
Lemma preparing_step s e :
  isPreparing s = true -> is_prepared e = false ->
  existsb is_execute (snd (exec (handle e) s)) = false.
Proof.
  step_cases s e; intros Hp He; subst; try discriminate.
  - destruct d; cbn; auto.
    destruct (is_undefined obj); cbn; auto.
    unfold param_values. destruct (values_of obj); cbn; auto.
  - auto.
  - destruct l; cbn; auto. destruct c; cbn; auto.
Qed.

Lemma before_prepared_clean evs :
  existsb is_prepared (before_prepared evs) = false.
Proof.
  induction evs as [|[k obj| |err|err] evs IH]; cbn; auto.
Qed.

Lemma preparing_run evs : forall s,
  isPreparing s = true -> existsb is_prepared evs = false ->
  existsb is_execute (effects s evs) = false.
Proof.
  induction evs as [|e evs IH]; intros s Hp He.
  - now cbn.
  - cbn in He. apply orb_false_iff in He as [He1 He2].
    rewrite writer_effects_cons, existsb_app, (preparing_step s e Hp He1).
    apply IH; auto. now rewrite isPreparing_step, He1.
Qed.

(** The deferred-close flag is raised only by the call that sets [done]. *)
Lemma shouldUnprepare_step s e :
  (shouldUnprepare s = true -> done s = true) ->
  shouldUnprepare (fst (exec (handle e) s)) = true ->
  done (fst (exec (handle e) s)) = true.
Proof.
  step_cases s e.
  - destruct d; auto. destruct (is_undefined obj); cbn.
    + destruct p; auto.
    + unfold param_values. destruct (values_of obj); auto.
      destruct p; auto.
  - destruct u; auto. destruct pv; auto.
  - destruct p; auto. destruct c; auto.
  - destruct l; auto. destruct c; auto.
Qed.

Lemma shouldUnprepare_run evs : forall s,
  (shouldUnprepare s = true -> done s = true) ->
  shouldUnprepare (final s evs) = true -> done (final s evs) = true.
Proof.
  induction evs as [|e evs IH]; intros s H.
  - exact H.
  - rewrite writer_final_cons. apply IH. now apply shouldUnprepare_step.
Qed.

Lemma split_at_prepared evs :
  (existsb is_prepared evs = false /\ before_prepared evs = evs) \/
  (existsb is_prepared evs = true /\
   exists rest, evs = before_prepared evs ++ Prepared :: rest).
Proof.
  induction evs as [|e evs IH].
  - left. now cbn.
  - destruct e as [k obj| |err|err]; cbn;
      try (destruct IH as [[H1 H2]|[H1 [rest H2]]];
           [ left; split; [assumption | now rewrite H2]
           | right; split; [assumption | exists rest; now rewrite <- H2] ]).
    right. split; auto. now exists evs.
Qed.

Lemma closing_step cb e :
  is_prepared e = false -> exec (handle e) (closing cb) = (closing cb, []).
Proof. destruct e; cbn; intros; try discriminate; reflexivity. Qed.

Lemma closing_run cb evs :
  existsb is_prepared evs = false ->
  run (closing cb) evs = (closing cb, []).
Proof.
  induction evs as [|e evs IH]; intros He; [reflexivity|].
  cbn in He. apply orb_false_iff in He as [He1 He2].
  unfold run in *. rewrite run_with_cons, (closing_step cb e He1).
  cbn [fst snd]. now rewrite (IH He2).
Qed.

Lemma closed_step s e :
  closed s ->
  closed (fst (exec (handle e) s)) /\
  filter is_execute (snd (exec (handle e) s)) = [] /\
  filter is_unprepare (snd (exec (handle e) s)) = [].
Proof.
  unfold closed. step_cases s e; intros (-> & -> & -> & -> & ->); cbn;
    try destruct c; cbn; auto 10.
Qed.

Lemma closed_run evs : forall s,
  closed s ->
  filter is_execute (effects s evs) = [] /\
  filter is_unprepare (effects s evs) = [].
Proof.
  induction evs as [|e evs IH]; intros s Hs; [now cbn|].
  destruct (closed_step s e Hs) as (Hs' & Hx & Hu).
  destruct (IH _ Hs') as [Hx' Hu'].
  now rewrite writer_effects_cons, !filter_app, Hx, Hu, Hx', Hu'.
Qed.

Lemma param_values_defined obj paramValues :
  param_values obj = inr paramValues -> is_undefined obj = false.
Proof. destruct obj; cbn; auto; discriminate. Qed.

(** A callback is parked only by the call it belongs to, and called only
    while parked. *)
Lemma foreign_step cb s e :
  callback s <> Some cb -> writes_as cb e = false ->
  callback (fst (exec (handle e) s)) <> Some cb /\
  existsb (invokes cb) (snd (exec (handle e) s)) = false.
Proof.
  step_cases s e; cbn [writes_as]; intros Hc He.
  - destruct d; cbn; auto.
    assert (Some k <> Some cb) as Hk
      by (intros [= ->]; rewrite Nat.eqb_refl in He; discriminate).
    destruct (is_undefined obj); cbn.
    + destruct p; cbn; auto.
    + unfold param_values. destruct (values_of obj); cbn.
      * rewrite He. split; [discriminate | reflexivity].
      * destruct p; cbn; auto.
  - destruct u; cbn; auto. destruct pv; cbn; auto.
  - destruct p; cbn; auto. destruct c as [k|]; cbn; [|split; [discriminate|reflexivity]].
    split; [discriminate|].
    destruct (Nat.eqb_spec k cb) as [->|]; [now elim Hc | reflexivity].
  - destruct l; cbn; auto. destruct c as [k|]; cbn; [|split; [discriminate|reflexivity]].
    split; [discriminate|].
    destruct (Nat.eqb_spec k cb) as [->|]; [now elim Hc | reflexivity].
Qed.

Lemma foreign_run cb evs : forall s,
  callback s <> Some cb -> existsb (writes_as cb) evs = false ->
  callback (final s evs) <> Some cb /\
  existsb (invokes cb) (effects s evs) = false.
Proof.
  induction evs as [|e evs IH]; intros s Hc He; [now cbn|].
  cbn in He. apply orb_false_iff in He as [He1 He2].
  destruct (foreign_step cb s e Hc He1) as [Hc' Hi].
  destruct (IH _ Hc' He2) as [Hc'' Hi'].
  now rewrite writer_final_cons, writer_effects_cons, existsb_app, Hi, Hi'.
Qed.

(** C4. No [execute] is issued before the [prepared] event: whatever
    arrives before it, the writer issues no [execute] and is still
    preparing; a row written then is stored as [pendingParamValues] with
    nothing sent to the session, and it is the [prepared] listener that
    issues the [execute] for it. *)
Theorem execute_waits_for_prepared (evs : list event) :
  let s := final init (before_prepared evs) in
  existsb is_execute (effects init (before_prepared evs)) = false /\
  isPreparing s = true /\
  forall (cb : nat) (obj : value) (paramValues : dict),
    done s = false -> param_values obj = inr paramValues ->
    exec (write cb obj) s =
      (set_pendingParamValues (Some paramValues)
         (set_callback (Some cb) s), []) /\
    snd (exec prepared_listener (fst (exec (write cb obj) s))) =
      [Execute paramValues].
Proof.
  intros s.
  assert (isPreparing s = true) as Hp.
  { unfold s. now rewrite isPreparing_run, before_prepared_clean. }
  split; [|split; [exact Hp|]].
  - apply preparing_run; [reflexivity | apply before_prepared_clean].
  - intros cb obj paramValues Hd Hv.
    assert (shouldUnprepare s = false) as Hu.
    { destruct (shouldUnprepare s) eqn:Hu; auto.
      unfold s in Hu, Hd. apply shouldUnprepare_run in Hu.
      - congruence.
      - discriminate. }
    pose proof (param_values_defined _ _ Hv) as Hn.
    clearbody s. destruct s as [d c p pv u l]. writer_machine. subst.
    rewrite Hn, Hv. cbn. auto.
Qed.

Lemma execute_waits_for_prepared_witness :
  let s := final init (before_prepared [Completed VNull; Prepared]) in
  done s = false /\
  param_values (VArr [VNum 7; VStr "x"]) =
    inr [("p0", VNum 7); ("p1", VStr "x")] /\
  snd (exec prepared_listener
         (fst (exec (write 0 (VArr [VNum 7; VStr "x"])) s))) =
    [Execute [("p0", VNum 7); ("p1", VStr "x")]].
Proof.
  intros s.
  split; [reflexivity|]. split; [reflexivity|].
  apply (execute_waits_for_prepared [Completed VNull; Prepared]);
    reflexivity.
Defined.

(** C5. The end of the stream written first, before [prepared]: until
    [prepared] fires the writer only detaches its error listener (the call
    is not resolved and nothing is sent to the session); the [prepared]
    event issues the unprepare; over the whole run there is no [execute]
    and exactly one [unprepare], none if [prepared] never fires. *)
Theorem close_while_preparing (cb : nat) (evs : list event) :
  let o := effects init (EWrite cb VUndefined :: evs) in
  effects init (EWrite cb VUndefined :: before_prepared evs) =
    [RemoveErrorListener] /\
  effects init (EWrite cb VUndefined :: before_prepared evs ++ [Prepared]) =
    [RemoveErrorListener; Unprepare] /\
  count is_execute o = 0 /\
  count is_unprepare o = if existsb is_prepared evs then 1 else 0.
Proof.
  intros o. unfold o, count. clear o.
  assert (forall l, effects init (EWrite cb VUndefined :: l) =
                    RemoveErrorListener :: effects (closing cb) l) as Hstart
    by (intros l; now rewrite writer_effects_cons).
  assert (forall l, existsb is_prepared l = false ->
                    effects (closing cb) l = [] /\
                    final (closing cb) l = closing cb) as Hwait.
  { intros l Hl. unfold effects, final. now rewrite closing_run. }
  pose proof (before_prepared_clean evs) as Hpre.
  destruct (Hwait _ Hpre) as [Ho Hs].
  rewrite !Hstart, writer_effects_app, Ho, Hs.
  split; [reflexivity|]. split; [reflexivity|].
  destruct (split_at_prepared evs) as [[Hn Heq]|[Hy [rest Heq]]].
  - rewrite Hn. rewrite <- Heq, Ho. now cbn.
  - rewrite Hy, Heq, writer_effects_app, Ho, Hs, writer_effects_cons.
    cbn [app]. 
    change (exec (handle Prepared) (closing cb)) with
      (mkState true (Some cb) false None false false, [Unprepare]).
    cbn [fst snd app filter is_execute is_unprepare length].
    destruct (closed_run rest (mkState true (Some cb) false None false false))
      as [Hx Hu]; [now repeat split|].
    now rewrite Hx, Hu.
Qed.





(** C9. Once [done] is set, a further call of the write function sends
    nothing to the session and leaves every variable of the writer as it
    was, and its callback is never called, whatever happens next. *)
Theorem write_after_done_is_inert
  (pre post : list event) (cb : nat) (obj : value) :
  done (final init pre) = true ->
  existsb (writes_as cb) pre = false ->
  existsb (writes_as cb) post = false ->
  exec (write cb obj) (final init pre) = (final init pre, []) /\
  existsb (invokes cb) (effects init (pre ++ EWrite cb obj :: post)) = false.
Proof.
  intros Hd Hpre Hpost.
  assert (exec (write cb obj) (final init pre) = (final init pre, [])) as Hw.
  { destruct (final init pre) as [d c p pv u l]. writer_machine. now subst. }
  split; [exact Hw|].
  destruct (foreign_run cb pre init) as [Hc Hi]; [discriminate | assumption |].
  destruct (foreign_run cb post (final init pre) Hc Hpost) as [_ Hi'].
  rewrite writer_effects_app, writer_effects_cons, existsb_app, Hi.
  change (handle (EWrite cb obj)) with (write cb obj).
  now rewrite Hw.
Qed.

Lemma write_after_done_is_inert_witness :
  done (final init [EWrite 0 VUndefined; Prepared]) = true /\
  exec (write 1 (VArr [VNum 7])) (final init [EWrite 0 VUndefined; Prepared])
    = (final init [EWrite 0 VUndefined; Prepared], []) /\
  existsb (invokes 1)
    (effects init ([EWrite 0 VUndefined; Prepared]
                     ++ EWrite 1 (VArr [VNum 7]) :: [Completed VNull]))
    = false.
Proof.
  split; [reflexivity|].
  apply (write_after_done_is_inert [EWrite 0 VUndefined; Prepared]
           [Completed VNull] 1 (VArr [VNum 7])); reflexivity.
Defined.
End WriterFacts.

(** ** The reader: further properties *)

Module ReaderMore.
Import Reader ReaderFacts.

(** *** What every run keeps *)

Lemma settled_init hook : settled (init hook).
Proof. unfold settled; cbn; repeat split; discriminate. Qed.

Lemma settled_step s e : settled s -> settled (fst (exec (handle e) s)).
Proof.
  unfold settled. destruct s as [er c st d p l r h].
  cbn [error callback stopped done paused received request close].
  intros (H1 & H2 & H3). destruct e as [v|err| | |].
  - destruct h, r, st, c as [[|]|], (truthy v) eqn:Hv; machine;
      rewrite ?Hv; rewrite ?push_eq; cbn; auto;
      unfold js_or; destruct (truthy er) eqn:He; cbn; rewrite ?He;
      repeat split; auto; try discriminate.
  - destruct h, r, st, c as [[|]|]; machine; cbn; auto;
      repeat split; auto; try discriminate.
  - destruct h, r, d, (truthy er) eqn:He, l as [|v l]; machine;
      rewrite ?He; rewrite ?shift_eq; cbn; rewrite ?He;
      repeat split; auto; try discriminate.
  - destruct h, d; machine; cbn; repeat split; auto; try discriminate.
  - destruct h; machine; cbn; repeat split; auto.
Qed.

Lemma settled_run evs : forall s, settled s -> settled (final s evs).
Proof.
  induction evs as [|e evs IH]; intros s Hs; [exact Hs|].
  rewrite final_cons. apply IH. now apply settled_step.
Qed.

Lemma monotone_step s e :
  (done s = true -> done (fst (exec (handle e) s)) = true) /\
  (stopped s = true -> stopped (fst (exec (handle e) s)) = true) /\
  (request s = false -> request (fst (exec (handle e) s)) = false) /\
  (close s = false -> close (fst (exec (handle e) s)) = false).
Proof.
  destruct s as [er c st d p l r h].
  cbn [error callback stopped done paused received request close].
  destruct e as [v|err| | |].
  - destruct h, r, st, c as [[|]|], (truthy v) eqn:Hv; machine;
      rewrite ?Hv; rewrite ?push_eq; cbn; auto.
  - destruct h, r, st, c as [[|]|]; machine; cbn; auto.
  - destruct h, r, d, (truthy er) eqn:He, l as [|v l]; machine;
      rewrite ?He; rewrite ?shift_eq; cbn; auto.
  - destruct h, d; machine; cbn; auto.
  - destruct h; machine; cbn; auto.
Qed.

Lemma monotone_run (s : state) (evs : list event) :
  (done s = true -> done (final s evs) = true) /\
  (stopped s = true -> stopped (final s evs) = true) /\
  (request s = false -> request (final s evs) = false) /\
  (close s = false -> close (final s evs) = false).
Proof.
  revert s. induction evs as [|e evs IH]; intros s; [now cbn|].
  rewrite final_cons.
  destruct (monotone_step s e) as (H1 & H2 & H3 & H4).
  destruct (IH (fst (exec (handle e) s))) as (I1 & I2 & I3 & I4).
  auto 10.
Qed.

(** X7. The flags of the reader only move one way, whatever arrives:
    [done] and [stopped], once set, stay set; the request, once dropped, and
    the release hook, once cleared, stay so. *)
Theorem reader_flags_monotone (s : state) (evs : list event) :
  (done s = true -> done (final s evs) = true) /\
  (stopped s = true -> stopped (final s evs) = true) /\
  (request s = false -> request (final s evs) = false) /\
  (close s = false -> close (final s evs) = false).
Proof. exact (monotone_run s evs). Qed.

(** *** After the completion event *)

Lemma completed_step s err :
  settled s ->
  done (fst (exec (handle (Completed err)) s)) = true /\
  request (fst (exec (handle (Completed err)) s)) = false.
Proof.
  unfold settled. destruct s as [er c st d p l r h].
  cbn [error callback stopped done paused received request close].
  intros (H1 & H2 & H3).
  destruct h, r, st, c as [[|]|]; machine; cbn; auto.
Qed.

(** X4. The listeners of the request are removed at most once in a run,
    and a completion event that arrives after an earlier one finds the
    request dropped: its callback throws a TypeError and leaves the reader
    as it was. *)
Theorem request_released_once
  (hook : bool) (pre mid post : list event) (err1 err2 : value) :
  let s := final (init hook) (pre ++ Completed err1 :: mid) in
  length (filter is_remove
            (effects (init hook) (pre ++ Completed err1 :: mid ++ post)))
    <= 1 /\
  exec (handle (Completed err2)) s = (s, [Uncaught type_error]).
Proof.
  intros s. split.
  - generalize (pre ++ Completed err1 :: mid ++ post). intros evs.
    assert (forall t, length (filter is_remove (effects t evs))
                      <= if request t then 1 else 0) as H.
    { induction evs as [|e evs IH]; intros t; [cbn; destruct (request t); lia|].
      rewrite effects_cons, filter_app, length_app.
      specialize (IH (fst (exec (handle e) t))).
      assert (length (filter is_remove (snd (exec (handle e) t)))
              + (if request (fst (exec (handle e) t)) then 1 else 0)
              <= if request t then 1 else 0) as Hstep; [|lia].
      clear IH. destruct t as [er c st d p l r h]. destruct e as [v|err| | |].
      - destruct h, r, st, c as [[|]|], (truthy v) eqn:Hv; machine;
          rewrite ?Hv; rewrite ?push_eq; cbn;
          try destruct (Nat.eqb (length (l ++ [v])) high); cbn; auto.
      - destruct h, r, st, c as [[|]|]; machine; cbn; auto.
      - destruct h, r, d, (truthy er) eqn:He, l as [|v l]; machine;
          rewrite ?He; rewrite ?shift_eq; cbn;
          try destruct (Nat.eqb (length l) 0); cbn; auto.
      - destruct h, d, r; machine; cbn; auto.
      - destruct h, r; machine; cbn; auto. }
    apply (H (init hook)).
  - assert (request s = false) as Hr.
    { unfold s. rewrite final_app, final_cons. apply monotone_run.
      apply completed_step. apply settled_run, settled_init. }
    clearbody s. destruct s as [er c st d p l r h]. cbn in Hr. subst.
    machine. reflexivity.
Qed.

(** X2. A completion event that carries an error while a call of the read
    function is blocked: the blocked call returns the end of the stream, the
    error is not kept, and every later call of the read function returns the
    end of the stream too: the error is never reported. *)
Theorem error_lost_when_read_is_blocked
  (hook : bool) (pre post : list event) (err : value) :
  forallb streaming pre = true ->
  callback (final (init hook) pre) = Some ReadCall ->
  let s := final (init hook) pre in
  reads (effects s (Completed err :: post)) =
    repeat end_of_stream (1 + count_reads post) /\
  truthy (error (final s (Completed err :: post))) = false.
Proof.
  intros Hpre Hcb s.
  pose proof (expecting_run pre _ (expecting_init hook) Hpre) as Hs.
  fold s in Hs, Hcb.
  set (t := fst (exec (handle (Completed err)) s)).
  assert (ended t /\ request t = false /\ received t = [] /\
          reads (snd (exec (handle (Completed err)) s)) = [end_of_stream])
    as (Ht & Hr & Hl & Hc).
  { unfold t, ended. clearbody s. unfold expecting in Hs.
    destruct s as [er c st d p l r h].
    cbn [error callback stopped done paused received request close] in *.
    destruct Hs as (Her & -> & -> & -> & [Hc|[_ ->]]); [congruence|].
    subst c. destruct h; machine; cbn; auto 10. }
  destruct (ended_run post t Ht (or_introl Hr)) as [Hrd _].
  rewrite effects_cons, final_cons, reads_app. fold t.
  rewrite Hc, Hrd, Hl, drain_nil. split; [reflexivity|].
  assert (forall evs u, ended u -> request u = false -> ended (final u evs))
    as Hend.
  { induction evs as [|e evs IH]; intros u Hu Hq; [exact Hu|].
    rewrite final_cons.
    destruct (ended_step u e Hu (or_introl Hq)) as (Hu' & Hq' & _).
    apply IH; auto. }
  apply (Hend post t Ht Hr).
Qed.

Lemma error_lost_when_read_is_blocked_witness :
  forallb streaming [Row (sample_row 1); Read; Read] = true /\
  callback (final (init false) [Row (sample_row 1); Read; Read]) =
    Some ReadCall /\
  reads (effects (final (init false) [Row (sample_row 1); Read; Read])
           (Completed sample_error :: [Read; Read])) =
    repeat end_of_stream 3.
Proof.
  repeat (split; [reflexivity|]).
  apply (error_lost_when_read_is_blocked false
           [Row (sample_row 1); Read; Read] [Read; Read] sample_error);
    reflexivity.
Defined.

(** *** The buffer under the events of a run *)

Lemma quiet_cons s e evs :
  quiet_while_paused s (e :: evs) =
  quiet_while_paused s [e]
    && quiet_while_paused (fst (exec (handle e) s)) evs.
Proof.
  cbn [quiet_while_paused]. destruct e; destruct (paused s); cbn;
    now rewrite ?andb_true_r.
Qed.

Lemma quiet_app l1 : forall s l2,
  quiet_while_paused s (l1 ++ l2) =
  quiet_while_paused s l1 && quiet_while_paused (final s l1) l2.
Proof.
  induction l1 as [|e l1 IH]; intros s l2; [reflexivity|].
  rewrite <- app_comm_cons, quiet_cons, (quiet_cons s e l1).
  rewrite final_cons, IH. now rewrite andb_assoc.
Qed.

Lemma within_event s e :
  within s -> quiet_while_paused s [e] = true ->
  within (fst (exec (handle e) s)).
Proof.
  unfold within. destruct s as [er c st d p l r h].
  cbn [error callback stopped done paused received request close
       quiet_while_paused].
  intros [Hl Hp] Hq. unfold high, low in *. destruct e as [v|err| | |].
  - destruct p; [discriminate|].
    assert (length l <> 2) as Hn by (intros H; now apply Hp in H).
    destruct h, r, st, c as [[|]|], (truthy v) eqn:Hv; machine;
      rewrite ?Hv; rewrite ?push_eq; cbn; auto;
      rewrite length_app; cbn [length];
      destruct (Nat.eqb_spec (length l + 1) high); unfold high in *;
      cbn; split; auto; lia.
  - destruct h, r, st, c as [[|]|]; machine; cbn; auto.
  - destruct h, r, d, (truthy er) eqn:He, l as [|v l]; machine;
      rewrite ?He; rewrite ?shift_eq; cbn in *; auto;
      split; try lia; try discriminate.
  - destruct h, d; machine; cbn; auto.
  - destruct h; machine; cbn; auto.
Qed.

(** X3. Over the events of a run, rows, completion, calls in any order: as
    long as no row event arrives while the reader has the transport paused,
    the buffer never holds more than [high] rows, and it holds [high] rows
    only while paused. *)
Theorem buffer_bounded_when_pause_is_honoured
  (hook : bool) (pre post : list event) :
  quiet_while_paused (init hook) (pre ++ post) = true ->
  let s := final (init hook) pre in
  length (received s) <= high /\
  (length (received s) = high -> paused s = true).
Proof.
  intros Hq s. rewrite quiet_app in Hq.
  apply andb_true_iff in Hq as [Hq _].
  assert (forall evs t, within t -> quiet_while_paused t evs = true ->
                        within (final t evs)) as H.
  { induction evs as [|e evs IH]; intros t Ht Hqt; [exact Ht|].
    rewrite quiet_cons in Hqt. apply andb_true_iff in Hqt as [H1 H2].
    rewrite final_cons. apply IH; [|exact H2]. now apply within_event. }
  apply (H pre (init hook)); [|exact Hq].
  split; cbn; [lia | discriminate].
Qed.

Lemma buffer_bounded_when_pause_is_honoured_witness :
  quiet_while_paused (init false)
    ([Row (sample_row 1); Row (sample_row 2); Read; Read]
       ++ [Row (sample_row 3)]) = true /\
  length (received (final (init false)
    [Row (sample_row 1); Row (sample_row 2); Read; Read])) <= high.
Proof.
  split; [reflexivity|].
  apply (buffer_bounded_when_pause_is_honoured false
           [Row (sample_row 1); Row (sample_row 2); Read; Read]
           [Row (sample_row 3)]).
  reflexivity.
Defined.

(** *** Calls and callbacks *)

Lemma invoke_budget_step s e :
  length (filter is_invoke (snd (exec (handle e) s)))
    + waiting (fst (exec (handle e) s))
  <= waiting s + count_calls [e].
Proof.
  unfold waiting. destruct s as [er c st d p l r h].
  cbn [error callback stopped done paused received request close].
  destruct e as [v|err| | |].
  - destruct h, r, st, c as [[|]|], (truthy v) eqn:Hv; machine;
      rewrite ?Hv; rewrite ?push_eq; cbn;
      try destruct (Nat.eqb (length (l ++ [v])) high); cbn; auto.
  - destruct h, r, st, c as [[|]|]; machine; cbn; auto.
  - destruct h, r, d, c as [[|]|], (truthy er) eqn:He, l as [|v l]; machine;
      rewrite ?He; rewrite ?shift_eq; cbn;
      try destruct (Nat.eqb (length l) 0); cbn; auto.
  - destruct h, d, c as [[|]|]; machine; cbn; auto.
  - destruct h, c as [[|]|]; machine; cbn; auto.
Qed.

Lemma count_calls_cons e evs :
  count_calls (e :: evs) = count_calls [e] + count_calls evs.
Proof.
  unfold count_calls. cbn [filter]. destruct (is_call e); reflexivity.
Qed.

Lemma invoke_budget_run evs : forall s,
  length (filter is_invoke (effects s evs)) + waiting (final s evs)
  <= waiting s + count_calls evs.
Proof.
  induction evs as [|e evs IH]; intros s; [cbn; lia|].
  rewrite effects_cons, final_cons, filter_app, length_app, count_calls_cons.
  pose proof (invoke_budget_step s e).
  specialize (IH (fst (exec (handle e) s))). lia.
Qed.

(** X5. No callback is called twice or out of nothing: in every run, the
    callbacks called so far, plus the one still parked, never outnumber the
    calls of the read function and of [stop] made so far. *)
Theorem callbacks_never_outnumber_calls (hook : bool) (evs : list event) :
  length (filter is_invoke (effects (init hook) evs))
    + waiting (final (init hook) evs)
  <= count_calls evs.
Proof. exact (invoke_budget_run evs (init hook)). Qed.

Lemma invoke_exact_step s e :
  sequential s [e] = true ->
  length (filter is_invoke (snd (exec (handle e) s)))
    + waiting (fst (exec (handle e) s))
  = waiting s + count_calls [e].
Proof.
  unfold waiting. destruct s as [er c st d p l r h].
  cbn [error callback stopped done paused received request close sequential].
  intros Hq. destruct e as [v|err| | |].
  - destruct h, r, st, c as [[|]|], (truthy v) eqn:Hv; machine;
      rewrite ?Hv; rewrite ?push_eq; cbn;
      try destruct (Nat.eqb (length (l ++ [v])) high); cbn; auto.
  - destruct h, r, st, c as [[|]|]; machine; cbn; auto.
  - destruct c; [discriminate|].
    destruct h, r, d, (truthy er) eqn:He, l as [|v l]; machine;
      rewrite ?He; rewrite ?shift_eq; cbn;
      try destruct (Nat.eqb (length l) 0); cbn; auto.
  - destruct c; [discriminate|]. destruct h, d; machine; cbn; auto.
  - destruct h, c as [[|]|]; machine; cbn; auto.
Qed.

Lemma invoke_exact_run evs : forall s,
  sequential s evs = true ->
  length (filter is_invoke (effects s evs)) + waiting (final s evs)
  = waiting s + count_calls evs.
Proof.
  induction evs as [|e evs IH]; intros s Hq; [cbn; lia|].
  rewrite sequential_cons in Hq. apply andb_true_iff in Hq as [Hq1 Hq2].
  rewrite effects_cons, final_cons, filter_app, length_app, count_calls_cons.
  pose proof (invoke_exact_step s e Hq1).
  specialize (IH (fst (exec (handle e) s)) Hq2). lia.
Qed.

(** X1. With one call at a time, whatever happened before a completion
    event and whatever follows it: once it has arrived [done] is set, no
    callback is parked, and every call of the read function and of [stop]
    made so far, before the completion or after it, has had its callback
    called. No call is left blocked, and the calls made after the
    completion are answered at once. *)
Theorem completion_releases_every_call
  (hook : bool) (pre post : list event) (err : value) :
  sequential (init hook) (pre ++ Completed err :: post) = true ->
  let evs := pre ++ Completed err :: post in
  let s := final (init hook) evs in
  done s = true /\ callback s = None /\
  length (filter is_invoke (effects (init hook) evs)) = count_calls evs.
Proof.
  intros Hq evs s.
  assert (settled s) as Hs by (apply settled_run, settled_init).
  assert (done s = true) as Hd.
  { unfold s, evs. rewrite final_app, final_cons. apply monotone_run.
    apply completed_step. apply settled_run, settled_init. }
  assert (callback s = None) as Hc by now apply Hs.
  split; [exact Hd|]. split; [exact Hc|].
  pose proof (invoke_exact_run evs (init hook) Hq) as H.
  fold s in H. unfold waiting in H. rewrite Hc in H. cbn in H. lia.
Qed.

Lemma completion_releases_every_call_witness :
  sequential (init true)
    ([Read; Row (sample_row 1); Resumed; Row (sample_row 2); Read; Resumed;
      Read] ++ Completed sample_error :: [Resumed; Read; Stop; Read]) = true /\
  length (filter is_invoke (effects (init true)
    ([Read; Row (sample_row 1); Resumed; Row (sample_row 2); Read; Resumed;
      Read] ++ Completed sample_error :: [Resumed; Read; Stop; Read]))) = 6.
Proof.
  split; [reflexivity|].
  apply (completion_releases_every_call true
           [Read; Row (sample_row 1); Resumed; Row (sample_row 2); Read;
            Resumed; Read]
           [Resumed; Read; Stop; Read] sample_error).
  reflexivity.
Defined.

Lemma stopping_step s e :
  settled s -> stopping s -> sequential s [e] = true ->
  stopping (fst (exec (handle e) s)) /\
  length (filter is_cancel (snd (exec (handle e) s)))
    + (if stopped (fst (exec (handle e) s)) then 0 else 1)
  <= if stopped s then 0 else 1.
Proof.
  unfold settled, stopping. destruct s as [er c st d p l r h].
  cbn [error callback stopped done paused received request close sequential].
  intros (H1 & H2 & H3) Hj Hq. destruct e as [v|err| | |].
  - destruct h, r, st, c as [[|]|], (truthy v) eqn:Hv; machine;
      rewrite ?Hv; rewrite ?push_eq; cbn;
      try destruct (Nat.eqb (length (l ++ [v])) high); cbn; auto.
  - destruct h, r, st, c as [[|]|]; machine; cbn; auto.
  - destruct c; [discriminate|].
    destruct h, r, d, st, (truthy er) eqn:He, l as [|v l]; machine;
      rewrite ?He; rewrite ?shift_eq; cbn;
      try destruct (Nat.eqb (length l) 0); cbn; auto;
      try (split; [intros _|lia]);
      destruct Hj as [Hj|Hj]; auto; try discriminate.
  - destruct c; [discriminate|].
    destruct h, d, st; machine; cbn; auto;
      destruct Hj as [Hj|Hj]; auto; discriminate.
  - destruct h, st; machine; cbn; auto.
Qed.

Lemma stopping_run evs : forall s,
  settled s -> stopping s -> sequential s evs = true ->
  length (filter is_cancel (effects s evs))
  <= if stopped s then 0 else 1.
Proof.
  induction evs as [|e evs IH]; intros s Hs Hj Hq.
  - cbn. destruct (stopped s); lia.
  - rewrite sequential_cons in Hq. apply andb_true_iff in Hq as [Hq1 Hq2].
    destruct (stopping_step s e Hs Hj Hq1) as [Hj' Hc].
    specialize (IH _ (settled_step s e Hs) Hj' Hq2).
    rewrite effects_cons, filter_app, length_app.
    destruct (stopped (fst (exec (handle e) s))); lia.
Qed.

(** X6. With one call at a time, the reader cancels the request at most
    once in a run, however often [stop] is called. *)
Theorem cancel_at_most_once (hook : bool) (evs : list event) :
  sequential (init hook) evs = true ->
  length (filter is_cancel (effects (init hook) evs)) <= 1.
Proof.
  intros Hq.
  apply (stopping_run evs (init hook) (settled_init hook)); [|exact Hq].
  unfold stopping. cbn. discriminate.
Qed.

Lemma cancel_at_most_once_witness :
  sequential (init false)
    [Row (sample_row 1); Stop; Row (sample_row 2); Completed VNull;
     Stop; Read; Stop] = true /\
  length (filter is_cancel (effects (init false)
    [Row (sample_row 1); Stop; Row (sample_row 2); Completed VNull;
     Stop; Read; Stop])) <= 1.
Proof.
  split; [reflexivity|].
  apply (cancel_at_most_once false
           [Row (sample_row 1); Stop; Row (sample_row 2); Completed VNull;
            Stop; Read; Stop]).
  reflexivity.
Defined.

(** X8. A consumer that calls the read function before each row arrives
    gets every truthy row handed over directly: the calls return the rows in
    order, the buffer stays empty, and the transport is never paused nor
    resumed. *)
Theorem read_ahead_bypasses_buffer (hook : bool) (rs : list value) :
  forallb truthy rs = true ->
  reads (effects (init hook) (read_ahead rs)) = map Returns rs /\
  received (final (init hook) (read_ahead rs)) = [] /\
  filter is_socket (effects (init hook) (read_ahead rs)) = [].
Proof.
  intros Hrs.
  assert (forall s, expecting s -> callback s = None -> received s = [] ->
            reads (effects s (read_ahead rs)) = map Returns rs /\
            received (final s (read_ahead rs)) = [] /\
            filter is_socket (effects s (read_ahead rs)) = []) as H.
  { induction rs as [|v rs IH]; intros s Hs Hc Hl; [now cbn|].
    cbn in Hrs. apply andb_true_iff in Hrs as [Hv Hrs].
    change (read_ahead (v :: rs)) with ([Read; Row v] ++ read_ahead rs).
    rewrite effects_app, final_app, reads_app, filter_app.
    set (t := final s [Read; Row v]).
    assert (reads (effects s [Read; Row v]) = [Returns v] /\
            filter is_socket (effects s [Read; Row v]) = [] /\
            expecting t /\ callback t = None /\ received t = [])
      as (Hr & Hk & Ht & Hct & Hlt).
    { unfold t, final, effects, run. clearbody t. unfold expecting in *.
      destruct s as [er c st d p l r h].
      cbn [error callback stopped done paused received request close] in *.
      destruct Hs as (Her & -> & -> & -> & _). subst.
      rewrite !run_with_cons. cbn [run_with fst snd].
      destruct h; machine; rewrite ?Her; cbn; rewrite ?Hv; cbn;
        unfold wait_result; cbn; auto 10. }
    destruct (IH Hrs t Ht Hct Hlt) as (I1 & I2 & I3).
    now rewrite Hr, Hk, I1, I2, I3. }
  apply H; [apply expecting_init | reflexivity | reflexivity].
Qed.

Lemma read_ahead_bypasses_buffer_witness :
  forallb truthy [sample_row 1; sample_row 2; sample_row 3] = true /\
  reads (effects (init false)
           (read_ahead [sample_row 1; sample_row 2; sample_row 3])) =
    [Returns (sample_row 1); Returns (sample_row 2); Returns (sample_row 3)].
Proof.
  split; [reflexivity|].
  apply (read_ahead_bypasses_buffer false
           [sample_row 1; sample_row 2; sample_row 3]).
  reflexivity.
Defined.
End ReaderMore.

(** ** The writer: further properties *)

Module WriterMore.
Import Writer WriterFacts.

(** *** Parameter names *)

Lemma param_name_inj i j : param_name i = param_name j -> i = j.
Proof.
  unfold param_name. cbn. intros [= H].
  assert (Some (Nat.to_uint i) = Some (Nat.to_uint j)) as E.
  { rewrite <- !NilEmpty.usu. now rewrite H. }
  injection E as E. now apply Unsigned.to_uint_inj.
Qed.

Lemma bind_from_names vals : forall i,
  map fst (bind_from i vals) = map param_name (seq i (length vals)).
Proof.
  induction vals as [|v vals IH]; intros i; cbn; [reflexivity|].
  now rewrite IH.
Qed.

Lemma bind_from_values vals : forall i, map snd (bind_from i vals) = vals.
Proof.
  induction vals as [|v vals IH]; intros i; cbn; [reflexivity|].
  now rewrite IH.
Qed.

(** X9. The parameters bound for a row are its values in order, under the
    names p0, p1, ... by position; the names are pairwise distinct, so that
    no value replaces another. An array binds its items, an object the
    values of its fields. *)
Theorem parameters_bound_by_position (i : nat) (vals : list value)
  (fields : list (string * value)) :
  map snd (bind_from i vals) = vals /\
  map fst (bind_from i vals) = map param_name (seq i (length vals)) /\
  NoDup (map fst (bind_from i vals)) /\
  param_values (VArr vals) = inr (bind_from 0 vals) /\
  param_values (VObj fields) = inr (bind_from 0 (map snd fields)).
Proof.
  split; [apply bind_from_values|]. split; [apply bind_from_names|].
  split; [|split; reflexivity].
  rewrite bind_from_names.
  generalize (seq_NoDup (length vals) i).
  induction (seq i (length vals)) as [|a l IH]; cbn; intros Hnd.
  - constructor.
  - inversion Hnd as [|? ? Ha Hl]; subst. constructor; [|now apply IH].
    intros Hin. apply in_map_iff in Hin as (b & Hb & Hin).
    apply param_name_inj in Hb. now subst.
Qed.

(** *** What every run keeps *)

Lemma writer_settled_step s e :
  (done s = true -> listening s = false) ->
  done (fst (exec (handle e) s)) = true ->
  listening (fst (exec (handle e) s)) = false.
Proof.
  step_cases s e.
  - destruct d; auto. destruct (is_undefined obj); cbn; auto.
    + destruct p; auto.
    + unfold param_values. destruct (values_of obj); auto. destruct p; auto.
  - destruct u; auto. destruct pv; auto.
  - destruct p; auto. destruct c; auto.
  - destruct l; auto. destruct c; auto.
Qed.

Lemma writer_settled_run evs : forall s,
  (done s = true -> listening s = false) ->
  done (final s evs) = true -> listening (final s evs) = false.
Proof.
  induction evs as [|e evs IH]; intros s H; [exact H|].
  rewrite writer_final_cons. apply IH. now apply writer_settled_step.
Qed.

Lemma writer_monotone_step s e :
  (done s = true -> done (fst (exec (handle e) s)) = true) /\
  (isPreparing s = false -> isPreparing (fst (exec (handle e) s)) = false) /\
  (listening s = false -> listening (fst (exec (handle e) s)) = false).
Proof.
  step_cases s e.
  - destruct d; auto. destruct (is_undefined obj); cbn; auto.
    + destruct p; auto.
    + unfold param_values. destruct (values_of obj); auto. destruct p; auto.
  - destruct u; auto. destruct pv; auto.
  - destruct p; auto. destruct c; auto.
  - destruct l; auto. destruct c; auto.
Qed.

Lemma writer_monotone_run evs : forall s,
  (done s = true -> done (final s evs) = true) /\
  (isPreparing s = false -> isPreparing (final s evs) = false) /\
  (listening s = false -> listening (final s evs) = false).
Proof.
  induction evs as [|e evs IH]; intros s; [now cbn|].
  rewrite writer_final_cons.
  destruct (writer_monotone_step s e) as (H1 & H2 & H3).
  destruct (IH (fst (exec (handle e) s))) as (I1 & I2 & I3). auto.
Qed.

(** X17. The flags of the writer only move one way, whatever arrives:
    [done], once set, stays set; [isPreparing], once cleared, stays cleared;
    and the error listener, once removed, is never registered again. *)
Theorem writer_flags_monotone (s : state) (evs : list event) :
  (done s = true -> done (final s evs) = true) /\
  (isPreparing s = false -> isPreparing (final s evs) = false) /\
  (listening s = false -> listening (final s evs) = false).
Proof. exact (writer_monotone_run evs s). Qed.

(** *** Errors of the session *)

(** X15. Once the end of the stream has been written, the writer no longer
    listens to the errors of the connection: an [errorMessage] event changes
    nothing and calls nothing, so that the call that closes the writer can
    only be resolved by the completion callback. *)
Theorem errors_ignored_after_end (pre : list event) (err : value) :
  done (final init pre) = true ->
  exec (handle (ErrorMessage err)) (final init pre) = (final init pre, []).
Proof.
  intros Hd.
  assert (listening (final init pre) = false) as Hl
    by (apply writer_settled_run; [discriminate | exact Hd]).
  destruct (final init pre) as [d c p pv u l]. cbn in Hl. subst.
  writer_machine. reflexivity.
Qed.

Lemma errors_ignored_after_end_witness :
  done (final init [Prepared; EWrite 0 VUndefined]) = true /\
  exec (handle (ErrorMessage sample_error))
    (final init [Prepared; EWrite 0 VUndefined]) =
  (final init [Prepared; EWrite 0 VUndefined], []).
Proof.
  split; [reflexivity|].
  apply (errors_ignored_after_end [Prepared; EWrite 0 VUndefined]
           sample_error).
  reflexivity.
Defined.

(** X16. Only the first error of the connection is handled: handling it
    removes the listener, and every later [errorMessage] event changes
    nothing and calls nothing, whatever call is blocked then. *)
Theorem only_first_error_handled
  (pre mid : list event) (err1 err2 : value) :
  let s := final init (pre ++ ErrorMessage err1 :: mid) in
  exec (handle (ErrorMessage err2)) s = (s, []).
Proof.
  intros s.
  assert (listening s = false) as Hl.
  { unfold s. rewrite writer_final_app, writer_final_cons.
    apply writer_monotone_run.
    destruct (final init pre) as [d c p pv u l]. writer_machine.
    destruct l; auto. destruct c; auto. }
  clearbody s. destruct s as [d c p pv u l]. cbn in Hl. subst.
  writer_machine. reflexivity.
Qed.

(** *** Calls and commands *)

(** X10. A call that writes [null] fails at once with the TypeError of
    [Object.keys]: its callback is called with the error, nothing is sent to
    the session, and the writer is left as it was, with no call parked. *)
Theorem null_row_fails_the_call (pre : list event) (cb : nat) :
  done (final init pre) = false ->
  exec (write cb VNull) (final init pre) =
  (set_callback None (final init pre), [Invoke cb type_error]).
Proof.
  intros Hd. destruct (final init pre) as [d c p pv u l].
  cbn in Hd. subst. writer_machine. reflexivity.
Qed.

Lemma null_row_fails_the_call_witness :
  done (final init [Prepared]) = false /\
  exec (write 0 VNull) (final init [Prepared]) =
  (set_callback None (final init [Prepared]), [Invoke 0 type_error]).
Proof.
  split; [reflexivity|].
  apply (null_row_fails_the_call [Prepared] 0). reflexivity.
Defined.

Lemma holds_step cb s e :
  count (invokes cb) (snd (exec (handle e) s))
    + holds cb (fst (exec (handle e) s))
  <= holds cb s + count (writes_as cb) [e].
Proof.
  unfold holds, count. step_cases s e; cbn [writes_as filter length].
  - destruct d; cbn; [destruct (Nat.eqb k cb); cbn; lia|].
    destruct (is_undefined obj); cbn.
    + destruct p; cbn; destruct (Nat.eqb k cb); cbn;
        destruct c as [j|]; try destruct (Nat.eqb j cb); lia.
    + unfold param_values. destruct (values_of obj); cbn;
        try destruct p; cbn; destruct (Nat.eqb k cb); cbn;
        destruct c as [j|]; try destruct (Nat.eqb j cb); lia.
  - destruct u; cbn; [lia|]. destruct pv; cbn; lia.
  - destruct p; cbn; [lia|].
    destruct c as [j|]; cbn; try destruct (Nat.eqb j cb); cbn; lia.
  - destruct l; cbn; [|lia].
    destruct c as [j|]; cbn; try destruct (Nat.eqb j cb); cbn; lia.
Qed.

Lemma holds_run cb evs : forall s,
  count (invokes cb) (effects s evs) + holds cb (final s evs)
  <= holds cb s + count (writes_as cb) evs.
Proof.
  induction evs as [|e evs IH]; intros s; [cbn; lia|].
  rewrite writer_effects_cons, writer_final_cons.
  pose proof (holds_step cb s e) as H1.
  specialize (IH (fst (exec (handle e) s))).
  unfold count in *. rewrite filter_app, length_app.
  change (e :: evs) with ([e] ++ evs). rewrite filter_app, length_app. lia.
Qed.

(** X11. The callback of a call of the write function is called at most
    once: in every run, the callbacks called for the calls numbered [cb],
    plus the one still parked, never outnumber those calls. *)
Theorem write_callback_called_at_most_once (cb : nat) (evs : list event) :
  count (invokes cb) (effects init evs) + holds cb (final init evs)
  <= count (writes_as cb) evs.
Proof. exact (holds_run cb evs init). Qed.

Lemma unprepare_budget evs : forall s,
  (shouldUnprepare s = true -> done s = true) ->
  count is_unprepare (effects s evs)
  <= if done s then (if shouldUnprepare s then 1 else 0)
     else (if existsb is_end evs then 1 else 0).
Proof.
  induction evs as [|e evs IH]; intros s Hs.
  - cbn. destruct (done s), (shouldUnprepare s); lia.
  - rewrite writer_effects_cons. unfold count in *.
    rewrite filter_app, length_app.
    specialize (IH (fst (exec (handle e) s))
                  (shouldUnprepare_step s e Hs)).
    revert IH. generalize (length (filter is_unprepare
      (effects (fst (exec (handle e) s)) evs))). intros n.
    cbn [existsb]. generalize (existsb is_end evs). intros b.
    clear evs. step_cases s e; cbn [is_end].
    + destruct d; cbn; [destruct u; auto|].
      destruct u; [now specialize (Hs eq_refl)|].
      destruct obj; cbn; try destruct p; cbn; destruct b; cbn; lia.
    + destruct d, u; cbn; try lia; try (now specialize (Hs eq_refl));
        destruct pv; cbn; lia.
    + destruct p; cbn; [destruct d, u; cbn; lia|].
      destruct c; cbn; destruct d, u; cbn; lia.
    + destruct l; cbn; [|destruct d, u; cbn; lia].
      destruct c; cbn; destruct d, u; cbn; lia.
Qed.

(** X12. In every run the writer unprepares the request at most once, and
    never unless the end of the stream was written. *)
Theorem unprepare_at_most_once (evs : list event) :
  count is_unprepare (effects init evs)
  <= if existsb is_end evs then 1 else 0.
Proof. apply (unprepare_budget evs init). discriminate. Qed.

(** *** A whole session *)

Lemma ready_row s cb obj err :
  isPreparing s = false -> done s = false -> bindable obj = true ->
  exec (handle (Completed err)) (fst (exec (handle (EWrite cb obj)) s)) =
    (set_callback None s, [Invoke cb err]) /\
  snd (exec (handle (EWrite cb obj)) s) = [Execute (params_of obj)].
Proof.
  unfold bindable, params_of. destruct s as [d c p pv u l].
  cbn [done isPreparing]. intros -> -> Hb.
  destruct (param_values obj) as [e|paramValues] eqn:Hv; [discriminate|].
  pose proof (param_values_defined _ _ Hv) as Hn.
  writer_machine. rewrite Hn, Hv. cbn. auto.
Qed.

Lemma ready_rows rows : forall s cb,
  isPreparing s = false -> done s = false ->
  forallb bindable (map fst rows) = true ->
  run s (row_calls cb rows) =
  (match rows with [] => s | _ :: _ => set_callback None s end,
   row_log cb rows).
Proof.
  induction rows as [|[obj err] rows IH]; intros s cb Hp Hd Hb;
    [reflexivity|].
  cbn in Hb. apply andb_true_iff in Hb as [Hb1 Hb2].
  destruct (ready_row s cb obj err Hp Hd Hb1) as [H1 H2].
  cbn [row_calls row_log]. unfold run in *.
  rewrite run_with_cons, H2, run_with_cons, H1. cbn [fst snd app].
  rewrite (IH (set_callback None s) (S cb)); auto.
  cbn [fst snd]. f_equal. destruct rows; reflexivity.
Qed.

(** X13. A whole session once the request is prepared: rows that can be
    bound, written one call after the other, each call waiting for the
    completion of its execute, then the end of the stream and the
    completion of the unprepare. The writer issues one execute per row, in
    order, with the parameters of that row, resolves each call with the
    outcome of its own execute, then unprepares once, removes its error
    listener and resolves the closing call with the outcome of the
    unprepare. *)
Theorem session_executes_each_row_once
  (pre : list event) (rows : list (value * value)) (cb : nat) (err : value) :
  isPreparing (final init pre) = false ->
  done (final init pre) = false ->
  forallb bindable (map fst rows) = true ->
  effects (final init pre)
    (row_calls cb rows
       ++ [EWrite (cb + length rows) VUndefined; Completed err]) =
  row_log cb rows
    ++ [Unprepare; RemoveErrorListener; Invoke (cb + length rows) err].
Proof.
  intros Hp Hd Hb.
  rewrite writer_effects_app. unfold effects at 1, final at 2.
  rewrite (ready_rows rows _ cb Hp Hd Hb). cbn [fst snd]. f_equal.
  set (t := match rows with
            | [] => final init pre
            | _ :: _ => set_callback None (final init pre)
            end).
  assert (isPreparing t = false /\ done t = false) as [Hpt Hdt]
    by (unfold t; destruct rows; cbn; auto).
  clearbody t. destruct t as [d c p pv u l]. cbn in Hpt, Hdt. subst.
  reflexivity.
Qed.

Lemma session_executes_each_row_once_witness :
  isPreparing (final init [Prepared]) = false /\
  done (final init [Prepared]) = false /\
  forallb bindable
    (map fst [(VArr [VNum 1; VStr "x"], VNull); (sample_row 2, sample_error)])
    = true /\
  effects (final init [Prepared])
    (row_calls 0
       [(VArr [VNum 1; VStr "x"], VNull); (sample_row 2, sample_error)]
       ++ [EWrite (0 + 2) VUndefined; Completed VNull]) =
  [Execute [("p0", VNum 1); ("p1", VStr "x")]; Invoke 0 VNull;
   Execute [("p0", VNum 2)]; Invoke 1 sample_error;
   Unprepare; RemoveErrorListener; Invoke 2 VNull].
Proof.
  repeat (split; [reflexivity|]).
  exact (session_executes_each_row_once [Prepared]
           [(VArr [VNum 1; VStr "x"], VNull); (sample_row 2, sample_error)]
           0 VNull eq_refl eq_refl eq_refl).
Defined.

(** X14. A row written before the request is prepared is executed exactly
    once: nothing is sent while completions of the prepare arrive, the
    [prepared] event issues its execute, and the call is resolved by the
    completion that follows, with its outcome. *)
Theorem early_row_executed_once
  (cb : nat) (obj : value) (confirmations : list value) (err : value) :
  bindable obj = true ->
  effects init (EWrite cb obj :: map Completed confirmations) = [] /\
  effects init
    (EWrite cb obj :: map Completed confirmations
       ++ [Prepared; Completed err]) =
  [Execute (params_of obj); Invoke cb err].
Proof.
  unfold bindable, params_of. intros Hb.
  destruct (param_values obj) as [e|paramValues] eqn:Hv; [discriminate|].
  pose proof (param_values_defined _ _ Hv) as Hn.
  set (t := mkState false (Some cb) true (Some paramValues) false true).
  assert (exec (handle (EWrite cb obj)) init = (t, [])) as Hw.
  { unfold init, t. writer_machine. rewrite Hn, Hv. reflexivity. }
  assert (forall l, run t (map Completed l) = (t, [])) as Hc.
  { induction l as [|x l IH]; [reflexivity|].
    cbn [map]. unfold run in *. rewrite run_with_cons.
    change (exec (handle (Completed x)) t) with (t, @nil effect).
    cbn [fst snd]. now rewrite IH. }
  split.
  - rewrite writer_effects_cons, Hw. cbn [fst snd app].
    unfold effects. now rewrite Hc.
  - rewrite app_comm_cons, writer_effects_app.
    rewrite writer_effects_cons, Hw. cbn [fst snd app].
    unfold effects at 1. rewrite Hc. cbn [snd app].
    rewrite writer_final_cons, Hw. cbn [fst]. unfold final. rewrite Hc.
    reflexivity.
Qed.

Lemma early_row_executed_once_witness :
  bindable (sample_row 7) = true /\
  effects init
    (EWrite 0 (sample_row 7) :: map Completed [VNull]
       ++ [Prepared; Completed sample_error]) =
  [Execute [("p0", VNum 7)]; Invoke 0 sample_error].
Proof.
  split; [reflexivity|].
  apply (early_row_executed_once 0 (sample_row 7) [VNull] sample_error).
  reflexivity.
Defined.
End WriterMore.
